(** * Quoridor: the board engine of [Quoridor.py]

    A shallow embedding of the classes [Tile] and [Board] and the proofs of
    the properties stated for them.

    Modelling conventions.
    - Python integers are [Z]; tuples are pairs; [(x, y)] is (column, row).
    - A [Tile] object is created once for every slot of the 9 x 9 grid and is
      never moved, copied or dropped.  A reference to a [Tile] is therefore
      modelled by the slot [(col, row)] the object was created for ([ref]),
      the heap of tiles by the grid itself, and a method that mutates a tile
      through a reference by an update of the grid at that slot.
    - A method that mutates [self] takes the board and returns the new one.
    - Exceptions are explicit: a computation returns [Ok v] or [Raise e]. *)

From stdpp Require Import base numbers option list strings gmap relations.

Open Scope Z_scope.

(* stdpp's solvers clear hypotheses by name and warn when one is gone. *)
Set Warnings "-clear-no-such-hyp".

(** ** Exceptions *)

Inductive exn :=
  | IndexError   (* a list is subscripted outside its range *)
  | TypeError    (* [None] is subscripted *)
  | OutOfFuel.   (* a [while] loop ran for more iterations than the model allots *)

Inductive result (A : Type) :=
  | Ok (a : A)
  | Raise (e : exn).
Arguments Ok {A} a.
Arguments Raise {A} e.

Global Instance result_ret : MRet result := fun A a => Ok a.
Global Instance result_bind : MBind result := fun A B f m =>
  match m with
  | Ok a => f a
  | Raise e => Raise e
  end.

(** [l[i]].  Python lets a negative subscript count from the end of the list;
    here every subscript outside [0 .. len(l) - 1] is reported as
    [IndexError], so that [Ok] certifies at once that no exception is raised
    and that the list is never read outside its slots. *)
Definition getitem {A} (l : list A) (i : Z) : result A :=
  if bool_decide (0 ≤ i) then
    match l !! Z.to_nat i with
    | Some x => Ok x
    | None => Raise IndexError
    end
  else Raise IndexError.

(** A reference to a [Tile]: the slot (column, row) it was created for. *)
Definition ref : Type := Z * Z.

(** What [Board._fair_play] puts into its set [paths_taken]: the player's
    position, a tuple, and [Tile] objects.  [Tile] defines neither [__eq__]
    nor [__hash__], so tiles are compared by identity and a tile is never
    equal to a tuple. *)
Inductive pyobj :=
  | PyTuple (p : Z * Z)
  | PyTile (r : ref).

Global Instance pyobj_eq_dec : EqDecision pyobj.
Proof. solve_decision. Defined.

Global Instance pyobj_countable : Countable pyobj.
Proof.
  refine (inj_countable'
    (fun o => match o with PyTuple p => inl p | PyTile r => inr r end)
    (fun s => match s with inl p => PyTuple p | inr r => PyTile r end) _).
  by intros [].
Defined.

(** The values [Board.place_fence] returns: [True], [False] or a string. *)
Inductive pyret :=
  | PyBool (b : bool)
  | PyStr (s : string).

Global Instance pyret_eq_dec : EqDecision pyret.
Proof. solve_decision. Defined.

(** ** class Tile *)

Module Tile.

Record t := mk {
  _north : option ref;  (* the Tile to the north, None if closed *)
  _south : option ref;
  _east : option ref;
  _west : option ref;
  _has_pawn : Z;        (* 0 for no pawn, 1 for player 1, 2 for player 2 *)
  _board_coord : option (Z * Z)
}.

Definition __init__ : t :=
  {| _north := None; _south := None; _east := None; _west := None;
     _has_pawn := 0; _board_coord := None |}.

Definition get_direction (self : t) (movement : Z * Z) : option ref :=
  if bool_decide (movement.1 < 0) then _west self
  else if bool_decide (movement.1 > 0) then _east self
  else if bool_decide (movement.2 < 0) then _north self
  else if bool_decide (movement.2 > 0) then _south self
  else None.

Definition get_valid_directions (self : t) : list ref :=
  let tiles := [] in
  let tiles := match _north self with Some n => tiles ++ [n] | None => tiles end in
  let tiles := match _south self with Some n => tiles ++ [n] | None => tiles end in
  let tiles := match _east self with Some n => tiles ++ [n] | None => tiles end in
  let tiles := match _west self with Some n => tiles ++ [n] | None => tiles end in
  tiles.

Definition get_has_pawn (self : t) : Z := _has_pawn self.

Definition get_board_coord (self : t) : option (Z * Z) := _board_coord self.

Definition close_direction (direction : string) (self : t) : t :=
  if decide (direction = "north") then
    mk None (_south self) (_east self) (_west self) (_has_pawn self) (_board_coord self)
  else if decide (direction = "south") then
    mk (_north self) None (_east self) (_west self) (_has_pawn self) (_board_coord self)
  else if decide (direction = "west") then
    mk (_north self) (_south self) (_east self) None (_has_pawn self) (_board_coord self)
  else if decide (direction = "east") then
    mk (_north self) (_south self) None (_west self) (_has_pawn self) (_board_coord self)
  else self.

Definition open_direction (direction : string) (tile : ref) (self : t) : t :=
  if decide (direction = "north") then
    mk (Some tile) (_south self) (_east self) (_west self) (_has_pawn self) (_board_coord self)
  else if decide (direction = "south") then
    mk (_north self) (Some tile) (_east self) (_west self) (_has_pawn self) (_board_coord self)
  else if decide (direction = "west") then
    mk (_north self) (_south self) (_east self) (Some tile) (_has_pawn self) (_board_coord self)
  else if decide (direction = "east") then
    mk (_north self) (_south self) (Some tile) (_west self) (_has_pawn self) (_board_coord self)
  else self.

Definition set_has_pawn (pawn : Z) (self : t) : t :=
  mk (_north self) (_south self) (_east self) (_west self) pawn (_board_coord self).

Definition set_board_coord (coords : Z * Z) (self : t) : t :=
  mk (_north self) (_south self) (_east self) (_west self) (_has_pawn self) (Some coords).

End Tile.

Global Instance Tile_eq_dec : EqDecision Tile.t.
Proof. solve_decision. Defined.

(** ** class Board *)

Module Board.

Record t := mk {
  _player_1 : Z * Z;
  _player_2 : Z * Z;
  _board : list (list Tile.t)   (* _board[row][col] *)
}.

(** The tile object behind a reference. *)
Definition cell (g : list (list Tile.t)) (r : ref) : option Tile.t :=
  if bool_decide (0 ≤ r.1 ∧ 0 ≤ r.2) then
    g !! Z.to_nat r.2 ≫= (fun row => row !! Z.to_nat r.1)
  else None.

Definition tile (self : t) (r : ref) : Tile.t :=
  default Tile.__init__ (cell (_board self) r).

(** A tile mutated in place through a reference to it. *)
Definition mutate (r : ref) (f : Tile.t → Tile.t) (self : t) : t :=
  if bool_decide (0 ≤ r.1 ∧ 0 ≤ r.2) then
    mk (_player_1 self) (_player_2 self)
       (alter (alter f (Z.to_nat r.1)) (Z.to_nat r.2) (_board self))
  else self.

(** [self._board[row][col]]: the reference stored in that slot. *)
Definition at_ (self : t) (row col : Z) : result ref :=
  line ← getitem (_board self) row;
  _ ← getitem line col;
  Ok (col, row).

Definition __init__ : t :=
  (* Set player locations *)
  let p1 := (4, 0) in
  let p2 := (4, 8) in
  (* Generate the board *)
  let board :=
    (fun row => (fun col => Tile.set_board_coord (col, row) Tile.__init__)
                  <$> seqZ 0 9) <$> seqZ 0 9 in
  let self := mk p1 p2 board in
  (* Open the connecting Tiles without fences *)
  let self :=
    foldl (fun self tile_row =>
      foldl (fun self tile_col =>
        let self :=
          if bool_decide (tile_col ≠ 0)
          then mutate (tile_col, tile_row)
                 (Tile.open_direction "west" (tile_col - 1, tile_row)) self
          else self in
        let self :=
          if bool_decide (tile_col ≠ 8)
          then mutate (tile_col, tile_row)
                 (Tile.open_direction "east" (tile_col + 1, tile_row)) self
          else self in
        let self :=
          if bool_decide (tile_row ≠ 0)
          then mutate (tile_col, tile_row)
                 (Tile.open_direction "north" (tile_col, tile_row - 1)) self
          else self in
        let self :=
          if bool_decide (tile_row ≠ 8)
          then mutate (tile_col, tile_row)
                 (Tile.open_direction "south" (tile_col, tile_row + 1)) self
          else self in
        self) self (seqZ 0 9)) self (seqZ 0 9) in
  (* place player on the board *)
  let self := mutate (4, 0) (Tile.set_has_pawn 1) self in
  let self := mutate (4, 8) (Tile.set_has_pawn 2) self in
  self.

Definition get_player_1 (self : t) : Z * Z := _player_1 self.
Definition get_player_2 (self : t) : Z * Z := _player_2 self.

Definition player_in_goal (self : t) (player : Z) : bool :=
  if bool_decide (player = 1 ∧ (_player_1 self).2 = 8) then true
  else if bool_decide (player = 2 ∧ (_player_2 self).2 = 0) then true
  else false.

Definition _can_jump_pawn (self : t) (current_tile : ref) (row_dir col_dir : Z) : bool :=
  if bool_decide ((Z.abs row_dir = 2 ∨ Z.abs col_dir = 2)
                  ∧ (Z.abs row_dir = 0 ∨ Z.abs col_dir = 0)) then
    match Tile.get_direction (tile self current_tile) (col_dir, row_dir) with
    | Some next_tile =>
        if bool_decide (Tile.get_has_pawn (tile self next_tile) ≠ 0) then
          match Tile.get_direction (tile self next_tile) (col_dir, row_dir) with
          | Some _ => true
          | None => false
          end
        else false
    | None => false
    end
  else false.

Definition _can_move_diagonally (self : t) (current_tile : ref) (row_dir col_dir : Z) : bool :=
  if bool_decide (Z.abs row_dir = 1 ∧ Z.abs col_dir = 1) then
    let change_col := Tile.get_direction (tile self current_tile) (col_dir, 0) in
    let change_row := Tile.get_direction (tile self current_tile) (0, row_dir) in
    (* the [elif] branch and the final [return False] *)
    let otherwise :=
      match change_row with
      | Some change_row =>
          if bool_decide (Tile.get_has_pawn (tile self change_row) ≠ 0) then
            (* enemy pawn is in an adjacent row *)
            if bool_decide
                 (Tile.get_direction (tile self change_row) (0, row_dir) = None
                  ∧ Tile.get_direction (tile self change_row) (col_dir, 0) ≠ None)
            then true else false
          else false
      | None => false
      end in
    match change_col with
    | Some change_col =>
        if bool_decide (Tile.get_has_pawn (tile self change_col) ≠ 0) then
          (* enemy pawn is in an adjacent column *)
          if bool_decide
               (Tile.get_direction (tile self change_col) (col_dir, 0) = None
                ∧ Tile.get_direction (tile self change_col) (0, row_dir) ≠ None)
          then true else false
        else otherwise
    | None => otherwise
    end
  else false.

Definition _can_move_regularly (self : t) (current_tile : ref) (row_dir col_dir : Z) : bool :=
  if bool_decide ((Z.abs row_dir = 1 ∨ Z.abs col_dir = 1)
                  ∧ (Z.abs row_dir = 0 ∨ Z.abs col_dir = 0)) then
    match Tile.get_direction (tile self current_tile) (col_dir, row_dir) with
    | Some _ => true
    | None => false
    end
  else false.

Definition move_pawn (player : Z) (new_pos : Z * Z) (self : t) : result (bool * t) :=
  (* Check whether new position is in-bounds and unoccupied *)
  if bool_decide (¬ (0 ≤ new_pos.1 ≤ 8) ∨ ¬ (0 ≤ new_pos.2 ≤ 8)) then Ok (false, self)
  else
    new_tile ← at_ self new_pos.2 new_pos.1;
    if bool_decide (Tile.get_has_pawn (tile self new_tile) ≠ 0) then Ok (false, self)
    else
      (* get player's current position *)
      let current_pos := if bool_decide (player = 1) then _player_1 self
                         else _player_2 self in
      current_tile ← at_ self current_pos.2 current_pos.1;
      let row_dir := new_pos.2 - current_pos.2 in
      let col_dir := new_pos.1 - current_pos.1 in
      let moving_regularly := _can_move_regularly self current_tile row_dir col_dir in
      let jumping_pawn := _can_jump_pawn self current_tile row_dir col_dir in
      let moving_diagonally := _can_move_diagonally self current_tile row_dir col_dir in
      if moving_regularly || jumping_pawn || moving_diagonally then
        let self := mutate current_tile (Tile.set_has_pawn 0) self in
        let self := mutate new_tile (Tile.set_has_pawn player) self in
        let self := if bool_decide (player = 1)
                    then mk new_pos (_player_2 self) (_board self)
                    else mk (_player_1 self) new_pos (_board self) in
        Ok (true, self)
      else Ok (false, self).

(** One pass of [for new_path in new_paths: ...]. *)
Definition enqueue (new_paths : list ref) (paths : list ref) (paths_taken : gset pyobj)
  : list ref * gset pyobj :=
  foldl (fun '(paths, paths_taken) new_path =>
           if bool_decide (PyTile new_path ∉ paths_taken)
           then (paths ++ [new_path], paths_taken ∪ {[PyTile new_path]})
           else (paths, paths_taken))
        (paths, paths_taken) new_paths.

(** [while len(paths) > 0: ...], for at most [fuel] tests of the condition. *)
Fixpoint while_paths (fuel : nat) (self : t) (destination : Z)
    (paths : list ref) (paths_taken : gset pyobj) : result bool :=
  match fuel with
  | O => Raise OutOfFuel
  | S fuel =>
      match paths with
      | [] => Ok false
      | head :: _ =>
          match Tile.get_board_coord (tile self head) with
          | None => Raise TypeError
          | Some coord =>
              if bool_decide (coord.2 = destination) then Ok true
              else
                let new_paths := Tile.get_valid_directions (tile self head) in
                let '(paths, paths_taken) := enqueue new_paths paths paths_taken in
                while_paths fuel self destination (tail paths) paths_taken
          end
      end
  end.

(** The start tile has at most 4 links and each of the 81 tiles is
    appended to [paths] at most once afterwards; one more test finds the
    list empty. *)
Definition loop_bound : nat := 4 + 81 + 1.

Definition _fair_play (player : Z) (self : t) : result bool :=
  let '(destination, position) :=
    if bool_decide (player = 1) then (8, get_player_1 self)
    else (0, get_player_2 self) in
  tile_ref ← at_ self position.2 position.1;
  let paths := Tile.get_valid_directions (tile self tile_ref) in
  let paths_taken : gset pyobj := {[ PyTuple position ]} in
  let paths_taken := foldl (fun s path => s ∪ {[ PyTile path ]}) paths_taken paths in
  while_paths loop_bound self destination paths paths_taken.

(** [not self._fair_play(1) or not self._fair_play(2)] *)
Definition unfair (self : t) : result bool :=
  fp1 ← _fair_play 1 self;
  if negb fp1 then Ok true
  else fp2 ← _fair_play 2 self; Ok (negb fp2).

Definition _place_fence_in_direction (direction : string) (tile_ref : ref) (self : t)
  : result (pyret * t) :=
  if decide (direction = "v") then
    match Tile.get_direction (tile self tile_ref) (-1, 0) with
    | None => Ok (PyBool false, self)
    | Some border_tile =>
        let self := mutate tile_ref (Tile.close_direction "west") self in
        let self := mutate border_tile (Tile.close_direction "east") self in
        broken ← unfair self;
        if (broken : bool) then
          let self := mutate tile_ref (Tile.open_direction "west" border_tile) self in
          let self := mutate border_tile (Tile.open_direction "east" tile_ref) self in
          Ok (PyStr "breaks the fair play rule", self)
        else Ok (PyBool true, self)
    end
  else if decide (direction = "h") then
    match Tile.get_direction (tile self tile_ref) (0, -1) with
    | None => Ok (PyBool false, self)
    | Some border_tile =>
        let self := mutate tile_ref (Tile.close_direction "north") self in
        let self := mutate border_tile (Tile.close_direction "south") self in
        broken ← unfair self;
        if (broken : bool) then
          let self := mutate tile_ref (Tile.open_direction "north" border_tile) self in
          let self := mutate border_tile (Tile.open_direction "south" tile_ref) self in
          Ok (PyStr "breaks the fair play rule", self)
        else Ok (PyBool true, self)
    end
  else Ok (PyBool true, self).

Definition place_fence (direction : string) (position : Z * Z) (self : t)
  : result (pyret * t) :=
  (* Check whether placing in a valid direction (v, h) *)
  if bool_decide (¬ (direction = "v" ∨ direction = "h")) then Ok (PyBool false, self)
  (* make sure fence is on the board *)
  else if bool_decide (¬ (0 ≤ position.1 ≤ 8) ∨ ¬ (0 ≤ position.2 ≤ 8))
  then Ok (PyBool false, self)
  else
    tile_ref ← at_ self position.2 position.1;
    _place_fence_in_direction direction tile_ref self.

End Board.

Global Instance Board_eq_dec : EqDecision Board.t.
Proof. solve_decision. Defined.

(** ** Sequences of calls *)

Inductive call :=
  | MovePawn (player : Z) (new_pos : Z * Z)
  | PlaceFence (direction : string) (position : Z * Z).

(** The board a call leaves behind. *)
Definition exec (c : call) (b : Board.t) : result Board.t :=
  match c with
  | MovePawn player new_pos => r ← Board.move_pawn player new_pos b; Ok r.2
  | PlaceFence direction position => r ← Board.place_fence direction position b; Ok r.2
  end.

(** The board after a sequence of calls on a freshly constructed [Board]. *)
Fixpoint play_from (b : Board.t) (cs : list call) : result Board.t :=
  match cs with
  | [] => Ok b
  | c :: cs => b' ← exec c b; play_from b' cs
  end.

Definition play (cs : list call) : result Board.t := play_from Board.__init__ cs.

(** Calls whose [player] argument is 1 or 2, as the interface asks. *)
Definition proper_call (c : call) : Prop :=
  match c with
  | MovePawn player _ => player = 1 ∨ player = 2
  | PlaceFence _ _ => True
  end.

Global Instance proper_call_dec c : Decision (proper_call c).
Proof. destruct c; apply _. Defined.

(** ** The grid and its links *)

Definition in_grid (x : ref) : Prop := 0 ≤ x.1 ≤ 8 ∧ 0 ≤ x.2 ≤ 8.

Global Instance in_grid_dec x : Decision (in_grid x).
Proof. unfold in_grid. apply _. Defined.

Inductive compass := North | South | East | West.

Global Instance compass_eq_dec : EqDecision compass.
Proof. solve_decision. Defined.

Definition link (t : Tile.t) (d : compass) : option ref :=
  match d with
  | North => Tile._north t
  | South => Tile._south t
  | East => Tile._east t
  | West => Tile._west t
  end.

(** The grid neighbour of a slot: rows grow to the south, columns to the east. *)
Definition toward (d : compass) (x : ref) : ref :=
  match d with
  | North => (x.1, x.2 - 1)
  | South => (x.1, x.2 + 1)
  | East => (x.1 + 1, x.2)
  | West => (x.1 - 1, x.2)
  end.

Definition opposite (d : compass) : compass :=
  match d with
  | North => South
  | South => North
  | East => West
  | West => East
  end.

(** The names [close_direction] and [open_direction] take. *)
Definition side_name (d : compass) : string :=
  match d with
  | North => "north"
  | South => "south"
  | East => "east"
  | West => "west"
  end.

(** The direction [Tile.get_direction] reads for a displacement: the sign of
    the column displacement first, else the sign of the row displacement. *)
Definition heading (col_dir row_dir : Z) : option compass :=
  if bool_decide (col_dir < 0) then Some West
  else if bool_decide (col_dir > 0) then Some East
  else if bool_decide (row_dir < 0) then Some North
  else if bool_decide (row_dir > 0) then Some South
  else None.

(** The directions of the column and of the row displacement of a diagonal. *)
Definition column_way (col_dir : Z) : compass :=
  if bool_decide (col_dir < 0) then West else East.

Definition row_way (row_dir : Z) : compass :=
  if bool_decide (row_dir < 0) then North else South.

(** ** Well-formed boards *)

(** The link of [x] toward [d], when it exists, is the grid neighbour of [x],
    and that neighbour holds the link back. *)
Definition link_ok (b : Board.t) (x : ref) (d : compass) : Prop :=
  match link (Board.tile b x) d with
  | None => True
  | Some y => y = toward d x ∧ in_grid y
              ∧ link (Board.tile b y) (opposite d) = Some x
  end.

Global Instance link_ok_dec b x d : Decision (link_ok b x d).
Proof. unfold link_ok. destruct (link (Board.tile b x) d); apply _. Defined.

(** What every board built by the program satisfies, whatever the arguments
    of the calls: the shape of the grid, the coordinates stored in the tiles,
    the links and the range of the stored positions. *)
Record board_ok (b : Board.t) : Prop := {
  ok_rows : length (Board._board b) = 9%nat;
  ok_cols : Forall (fun line => length line = 9%nat) (Board._board b);
  ok_coord : ∀ x, in_grid x → Tile._board_coord (Board.tile b x) = Some x;
  ok_links : ∀ x d, in_grid x → link_ok b x d;
  ok_player_1 : in_grid (Board._player_1 b);
  ok_player_2 : in_grid (Board._player_2 b)
}.

(** The marker a slot must carry, given the two stored positions. *)
Definition marker (b : Board.t) (x : ref) : Z :=
  if decide (x = Board._player_1 b) then 1
  else if decide (x = Board._player_2 b) then 2
  else 0.

(** The markers agree with the stored positions: the cell of player 1 carries
    1, the cell of player 2 carries 2, every other cell carries 0. *)
Record pawns_ok (b : Board.t) : Prop := {
  pawns_apart : Board._player_1 b ≠ Board._player_2 b;
  pawns_marker : ∀ x, in_grid x → Tile._has_pawn (Board.tile b x) = marker b x
}.

(** ** Players *)

(** The stored position of a player, as [move_pawn] and [_fair_play] pick it:
    player 1 or else player 2. *)
Definition position_of (b : Board.t) (player : Z) : Z * Z :=
  if bool_decide (player = 1) then Board._player_1 b else Board._player_2 b.

Definition goal_row (player : Z) : Z :=
  if bool_decide (player = 1) then 8 else 0.

Definition opponent (player : Z) : Z :=
  if bool_decide (player = 1) then 2 else 1.

(** ** Legal moves *)

(** [move_pawn] reports success. *)
Definition moves (r : result (bool * Board.t)) : Prop := ∃ b', r = Ok (true, b').

(** The board [move_pawn] builds when the move is legal. *)
Definition moved (player : Z) (new_pos : Z * Z) (b : Board.t) : Board.t :=
  let b := Board.mutate (position_of b player) (Tile.set_has_pawn 0) b in
  let b := Board.mutate new_pos (Tile.set_has_pawn player) b in
  if bool_decide (player = 1)
  then Board.mk new_pos (Board._player_2 b) (Board._board b)
  else Board.mk (Board._player_1 b) new_pos (Board._board b).

(** The three shapes of a legal move, as [move_pawn] tests them. *)
Definition legal (b : Board.t) (player : Z) (new_pos : Z * Z) : bool :=
  let cur := position_of b player in
  let row_dir := new_pos.2 - cur.2 in
  let col_dir := new_pos.1 - cur.1 in
  Board._can_move_regularly b cur row_dir col_dir
  || Board._can_jump_pawn b cur row_dir col_dir
  || Board._can_move_diagonally b cur row_dir col_dir.

(** A regular move: the target is the grid neighbour of the current cell in
    some direction and the link of the current cell in that direction is open. *)
Definition regular_legal (b : Board.t) (cur target : ref) : Prop :=
  ∃ d, toward d cur = target ∧ is_Some (link (Board.tile b cur) d).

(** A jump: the target is two steps away in some direction, the link of the
    current cell in that direction is open, the cell behind it holds a pawn
    and the link of that cell in the same direction is open. *)
Definition jump_legal (b : Board.t) (cur target : ref) : Prop :=
  ∃ d, toward d (toward d cur) = target
       ∧ is_Some (link (Board.tile b cur) d)
       ∧ Tile._has_pawn (Board.tile b (toward d cur)) ≠ 0
       ∧ is_Some (link (Board.tile b (toward d cur)) d).

(** The cell behind the link [d] of [cur] holds the opponent's pawn, its own
    link [d] is closed and its link [side] is open. *)
Definition blocked_jump (b : Board.t) (player : Z) (cur : ref) (d side : compass) : Prop :=
  ∃ x, link (Board.tile b cur) d = Some x
       ∧ Tile._has_pawn (Board.tile b x) = opponent player
       ∧ link (Board.tile b x) d = None
       ∧ is_Some (link (Board.tile b x) side).

(** The same for a pawn of any player, as [_can_move_diagonally] tests it. *)
Definition pawn_blocked (b : Board.t) (cur : ref) (d side : compass) : Prop :=
  ∃ x, link (Board.tile b cur) d = Some x
       ∧ Tile._has_pawn (Board.tile b x) ≠ 0
       ∧ link (Board.tile b x) d = None
       ∧ is_Some (link (Board.tile b x) side).

(** The cell behind the link [d] of [cur] is absent or holds no pawn. *)
Definition no_pawn_behind (b : Board.t) (cur : ref) (d : compass) : Prop :=
  match link (Board.tile b cur) d with
  | None => True
  | Some x => Tile._has_pawn (Board.tile b x) = 0
  end.

(** A diagonal side-step, for the column direction [dc] and the row direction
    [dr] of the displacement. *)
Definition side_step_legal (b : Board.t) (player : Z) (cur : ref) (dc dr : compass) : Prop :=
  blocked_jump b player cur dc dr
  ∨ (no_pawn_behind b cur dc ∧ blocked_jump b player cur dr dc).

(** ** Fences *)

(** The side of the target cell a fence closes: west for "v", north for "h". *)
Definition fence_side (direction : string) : option compass :=
  if decide (direction = "v") then Some West
  else if decide (direction = "h") then Some North
  else None.

(** The board with the link of [x] toward [d] closed on both sides. *)
Definition fenced (d : compass) (x : ref) (b : Board.t) : Board.t :=
  Board.mutate (toward d x) (Tile.close_direction (side_name (opposite d)))
    (Board.mutate x (Tile.close_direction (side_name d)) b).

Definition fair_play_message : string := "breaks the fair play rule".

(** ** Routes *)

(** [y] is behind an open link of [x]. *)
Definition linked (b : Board.t) (x y : ref) : Prop :=
  y ∈ Tile.get_valid_directions (Board.tile b x).

(** A path of open links, of any length, from the player's cell to a cell of
    the player's goal row. *)
Definition has_route (b : Board.t) (player : Z) : Prop :=
  ∃ y, rtc (linked b) (position_of b player) y ∧ y.2 = goal_row player.

(** The same with at least one link. *)
Definition has_route_via_link (b : Board.t) (player : Z) : Prop :=
  ∃ s y, linked b (position_of b player) s ∧ rtc (linked b) s y ∧ y.2 = goal_row player.

(** The cell [x] has an open link. *)
Definition has_open_link (b : Board.t) (x : ref) : Prop :=
  Tile.get_valid_directions (Board.tile b x) ≠ [].

(** ** The search of [_fair_play] *)

(** The 81 tiles, as members of [paths_taken]. *)
Definition all_tiles : gset pyobj :=
  list_to_set (col ← seqZ 0 9; row ← seqZ 0 9; [PyTile (col, row)]).

(** What decreases at every turn of the loop: the tiles waiting in [paths]
    and the tiles not yet in [paths_taken]. *)
Definition work_left (paths : list ref) (paths_taken : gset pyobj) : nat :=
  (length paths + size (all_tiles ∖ paths_taken))%nat.

(** The loop invariant, for the tiles [seeds] the search started from. *)
Record search_inv (b : Board.t) (destination : Z) (seeds paths : list ref)
    (paths_taken : gset pyobj) : Prop := {
  inv_waiting : ∀ y, y ∈ paths → PyTile y ∈ paths_taken;
  inv_grid : ∀ y, PyTile y ∈ paths_taken → in_grid y;
  inv_reached : ∀ y, PyTile y ∈ paths_taken → ∃ s, s ∈ seeds ∧ rtc (linked b) s y;
  inv_seeds : ∀ s, s ∈ seeds → PyTile s ∈ paths_taken;
  inv_done : ∀ y, PyTile y ∈ paths_taken → y ∉ paths →
             y.2 ≠ destination ∧ ∀ z, linked b y z → PyTile z ∈ paths_taken
}.

(** Some tile of row [destination] is behind a path of links from a seed. *)
Definition seeds_reach (b : Board.t) (destination : Z) (seeds : list ref) : Prop :=
  ∃ s y, s ∈ seeds ∧ rtc (linked b) s y ∧ y.2 = destination.

(** ** Boards used in the examples *)

(** Player 1 at (4, 4) and player 2 at (4, 5), no fences. *)
Definition standoff_calls : list call :=
  [ MovePawn 1 (4, 1); MovePawn 1 (4, 2); MovePawn 1 (4, 3); MovePawn 1 (4, 4);
    MovePawn 2 (4, 7); MovePawn 2 (4, 6); MovePawn 2 (4, 5) ].

Definition standoff : Board.t :=
  match play standoff_calls with
  | Ok b => b
  | Raise _ => Board.__init__
  end.

(** The same with a fence between (4, 5) and (4, 6), behind player 2. *)
Definition walled_calls : list call := standoff_calls ++ [ PlaceFence "h" (4, 6) ].

Definition walled : Board.t :=
  match play walled_calls with
  | Ok b => b
  | Raise _ => Board.__init__
  end.

(** A board on which player 1 stands in its goal row, at (3, 8), with fences
    west and east of the cell. *)
Definition cornered_calls : list call :=
  [ MovePawn 1 (4, 1); MovePawn 1 (4, 2); MovePawn 1 (4, 3); MovePawn 1 (4, 4);
    MovePawn 1 (4, 5); MovePawn 1 (4, 6); MovePawn 1 (4, 7); MovePawn 1 (3, 7);
    MovePawn 1 (3, 8); PlaceFence "v" (3, 8); PlaceFence "v" (4, 8) ].

Definition cornered : Board.t :=
  match play cornered_calls with
  | Ok b => b
  | Raise _ => Board.__init__
  end.

(** [cornered] in the middle of [place_fence("h", (3, 8))]: the link north of
    (3, 8) is closed and the fair-play checks are about to run. *)
Definition sealed : Board.t :=
  Board.mutate (3, 7) (Tile.close_direction "south")
    (Board.mutate (3, 8) (Tile.close_direction "north") cornered).

(** ** class QuoridorGame *)

(** Python's truth value of what [Board.place_fence] returns. *)
Definition truthy (v : pyret) : bool :=
  match v with
  | PyBool b => b
  | PyStr s => negb (bool_decide (s = EmptyString))
  end.

Module QuoridorGame.

Record t := mk {
  _board : Board.t;
  _player_turn : Z;       (* 1 for Player 1, 2 for Player 2 *)
  _game_over : Z;         (* 0 when game in progress, 1 if Player 1 wins, 2 if Player 2 wins *)
  _player_1_fences : Z;
  _player_2_fences : Z
}.

Definition __init__ : t :=
  {| _board := Board.__init__; _player_turn := 1; _game_over := 0;
     _player_1_fences := 10; _player_2_fences := 10 |}.

Definition move_pawn (player : Z) (new_pos : Z * Z) (self : t) : result (bool * t) :=
  (* Check whether game already won *)
  if bool_decide (_game_over self ≠ 0) then Ok (false, self)
  (* Check whether valid player is moving their pawn *)
  else if bool_decide (player ≠ _player_turn self) then Ok (false, self)
  else
    (* Move pawn - calls Board's move_pawn *)
    '(success, board) ← Board.move_pawn player new_pos (_board self);
    let self := mk board (_player_turn self) (_game_over self)
                   (_player_1_fences self) (_player_2_fences self) in
    if (success : bool) then
      let self :=
        if Board.player_in_goal (_board self) player
        then mk (_board self) (_player_turn self) player
                (_player_1_fences self) (_player_2_fences self)
        else self in
      (* update which player's turn it is *)
      let self :=
        if bool_decide (player = 1)
        then mk (_board self) 2 (_game_over self)
                (_player_1_fences self) (_player_2_fences self)
        else mk (_board self) 1 (_game_over self)
                (_player_1_fences self) (_player_2_fences self) in
      Ok (true, self)
    else Ok (false, self).

Definition place_fence (player : Z) (direction : string) (position : Z * Z) (self : t)
  : result (pyret * t) :=
  (* Check whether game already won *)
  if bool_decide (_game_over self ≠ 0) then Ok (PyBool false, self)
  (* Check whether valid player is moving their pawn *)
  else if bool_decide (player ≠ _player_turn self) then Ok (PyBool false, self)
  (* Check whether player has fence pieces *)
  else if bool_decide (player = 1 ∧ _player_1_fences self = 0) then Ok (PyBool false, self)
  else if bool_decide (player = 2 ∧ _player_2_fences self = 0) then Ok (PyBool false, self)
  else
    (* Try to place the piece *)
    '(piece_placed, board) ← Board.place_fence direction position (_board self);
    let self := mk board (_player_turn self) (_game_over self)
                   (_player_1_fences self) (_player_2_fences self) in
    if bool_decide (piece_placed = PyStr "breaks the fair play rule")
    then Ok (PyStr "breaks the fair play rule", self)
    else if truthy piece_placed then
      (* update which player's turn it is *)
      let self :=
        if bool_decide (player = 1)
        then mk (_board self) 2 (_game_over self)
                (_player_1_fences self - 1) (_player_2_fences self)
        else mk (_board self) 1 (_game_over self)
                (_player_1_fences self) (_player_2_fences self - 1) in
      Ok (PyBool true, self)
    else Ok (PyBool false, self).

Definition is_winner (self : t) (player : Z) : bool :=
  if bool_decide (_game_over self = player) then true else false.

End QuoridorGame.

(** ** Sequences of calls on a game *)

Inductive game_call :=
  | GameMove (player : Z) (new_pos : Z * Z)
  | GameFence (player : Z) (direction : string) (position : Z * Z).

Definition game_exec (c : game_call) (g : QuoridorGame.t) : result QuoridorGame.t :=
  match c with
  | GameMove player new_pos => r ← QuoridorGame.move_pawn player new_pos g; Ok r.2
  | GameFence player direction position =>
      r ← QuoridorGame.place_fence player direction position g; Ok r.2
  end.

Fixpoint game_play_from (g : QuoridorGame.t) (cs : list game_call) : result QuoridorGame.t :=
  match cs with
  | [] => Ok g
  | c :: cs => g' ← game_exec c g; game_play_from g' cs
  end.

(** The game after a sequence of calls on a new [QuoridorGame]. *)
Definition game_play (cs : list game_call) : result QuoridorGame.t :=
  game_play_from QuoridorGame.__init__ cs.

(** The fences a player has left. *)
Definition fences_of (g : QuoridorGame.t) (player : Z) : Z :=
  if bool_decide (player = 1) then QuoridorGame._player_1_fences g
  else QuoridorGame._player_2_fences g.

(** The game after a move of the player on turn. *)
Definition game_moved (player : Z) (new_pos : Z * Z) (g : QuoridorGame.t) : QuoridorGame.t :=
  QuoridorGame.mk (moved player new_pos (QuoridorGame._board g)) (opponent player)
    (if bool_decide (new_pos.2 = goal_row player) then player
     else QuoridorGame._game_over g)
    (QuoridorGame._player_1_fences g) (QuoridorGame._player_2_fences g).

(** The game after a fence of the player on turn. *)
Definition game_fenced (player : Z) (d : compass) (position : Z * Z) (g : QuoridorGame.t)
  : QuoridorGame.t :=
  QuoridorGame.mk (fenced d position (QuoridorGame._board g)) (opponent player)
    (QuoridorGame._game_over g)
    (if bool_decide (player = 1) then QuoridorGame._player_1_fences g - 1
     else QuoridorGame._player_1_fences g)
    (if bool_decide (player = 1) then QuoridorGame._player_2_fences g
     else QuoridorGame._player_2_fences g - 1).

(** The places a fence can take: a cell with its west or north side, when
    the neighbour on that side is on the grid. *)
Definition fence_slots : list (ref * compass) :=
  seqZ 0 9 ≫= fun col : Z =>
  seqZ 0 9 ≫= fun row : Z =>
  [West; North] ≫= fun d : compass =>
  if bool_decide (in_grid (toward d (col, row))) then [((col, row), d)] else [].

(** The fences standing on the board: the fence slots whose link is closed. *)
Definition fences_on_board (b : Board.t) : nat :=
  length (filter (fun s => link (Board.tile b s.1) s.2 = None) fence_slots).

(** What every game built by calls on a new game satisfies. *)
Record game_ok (g : QuoridorGame.t) : Prop := {
  gok_board : board_ok (QuoridorGame._board g);
  gok_pawns : pawns_ok (QuoridorGame._board g);
  gok_turn : QuoridorGame._player_turn g = 1 ∨ QuoridorGame._player_turn g = 2;
  gok_over : QuoridorGame._game_over g = 0 ∨ QuoridorGame._game_over g = 1
             ∨ QuoridorGame._game_over g = 2;
  gok_goal_1 : (Board._player_1 (QuoridorGame._board g)).2 = 8
               ↔ QuoridorGame._game_over g = 1;
  gok_goal_2 : (Board._player_2 (QuoridorGame._board g)).2 = 0
               ↔ QuoridorGame._game_over g = 2;
  gok_fences_1 : 0 ≤ QuoridorGame._player_1_fences g ≤ 10;
  gok_fences_2 : 0 ≤ QuoridorGame._player_2_fences g ≤ 10;
  gok_fences : Z.of_nat (fences_on_board (QuoridorGame._board g))
               = 20 - QuoridorGame._player_1_fences g - QuoridorGame._player_2_fences g;
  gok_routes : has_route (QuoridorGame._board g) 1 ∧ has_route (QuoridorGame._board g) 2
}.

(** The displacement of a straight move: one or two steps along one axis. *)
Definition straight (cur target : ref) : Prop :=
  (target.1 = cur.1 ∧ (Z.abs (target.2 - cur.2) = 1 ∨ Z.abs (target.2 - cur.2) = 2))
  ∨ (target.2 = cur.2 ∧ (Z.abs (target.1 - cur.1) = 1 ∨ Z.abs (target.1 - cur.1) = 2)).

(** Boards and games used in the examples of the game *)

(** Player 1 just reached row 8. *)
Definition won_calls : list game_call :=
  [ GameMove 1 (4, 1); GameMove 2 (3, 8); GameMove 1 (4, 2); GameMove 2 (2, 8);
    GameMove 1 (4, 3); GameMove 2 (3, 8); GameMove 1 (4, 4); GameMove 2 (2, 8);
    GameMove 1 (4, 5); GameMove 2 (3, 8); GameMove 1 (4, 6); GameMove 2 (2, 8);
    GameMove 1 (4, 7); GameMove 2 (3, 8); GameMove 1 (4, 8) ].

Definition won : QuoridorGame.t :=
  match game_play won_calls with
  | Ok g => g
  | Raise _ => QuoridorGame.__init__
  end.

(** One fence placed by player 1. *)
Definition opened_calls : list game_call := [ GameFence 1 "h" (4, 1) ].

Definition opened : QuoridorGame.t :=
  match game_play opened_calls with
  | Ok g => g
  | Raise _ => QuoridorGame.__init__
  end.

(** * Proofs *)

(** ** Reading and mutating tiles *)

Section Heap.

Implicit Types (b : Board.t) (x y r : ref) (f : Tile.t → Tile.t).

Lemma cell_mutate r f b x :
  Board.cell (Board._board (Board.mutate r f b)) x
  = if decide (x = r) then f <$> Board.cell (Board._board b) x
    else Board.cell (Board._board b) x.
Proof.
  destruct r as [c l], x as [c' l']. unfold Board.mutate, Board.cell. simpl.
  case_bool_decide as Hr; cbn [Board._board].
  - case_decide as Hx.
    + inversion Hx; subst. rewrite bool_decide_eq_true_2 by done.
      cbn [Board._board]. rewrite list_lookup_alter_eq.
      destruct (Board._board b !! Z.to_nat l) as [line|]; simpl; [|done].
      by rewrite list_lookup_alter_eq.
    + case_bool_decide as Hx'; [|done]. cbn [Board._board].
      destruct (decide (l' = l)) as [->|Hl].
      * rewrite list_lookup_alter_eq.
        destruct (Board._board b !! Z.to_nat l) as [line|]; simpl; [|done].
        rewrite list_lookup_alter_ne; [done|]. intros E.
        apply Hx. f_equal. lia.
      * rewrite list_lookup_alter_ne; [done|]. lia.
  - case_decide as Hx; [|done].
    by inversion Hx; subst.
Qed.

Lemma tile_mutate_ne r f b x : x ≠ r → Board.tile (Board.mutate r f b) x = Board.tile b x.
Proof. intros. unfold Board.tile. rewrite cell_mutate. by rewrite decide_False. Qed.

Lemma tile_mutate_eq r f b :
  is_Some (Board.cell (Board._board b) r) →
  Board.tile (Board.mutate r f b) r = f (Board.tile b r).
Proof.
  intros [t Ht]. unfold Board.tile. rewrite cell_mutate, decide_True by done.
  by rewrite Ht.
Qed.

Lemma cell_mutate_is_Some r f b x :
  is_Some (Board.cell (Board._board (Board.mutate r f b)) x)
  ↔ is_Some (Board.cell (Board._board b) x).
Proof. rewrite cell_mutate. case_decide; [|done]. by rewrite fmap_is_Some. Qed.

Lemma player_1_mutate r f b : Board._player_1 (Board.mutate r f b) = Board._player_1 b.
Proof. unfold Board.mutate. by case_bool_decide. Qed.

Lemma player_2_mutate r f b : Board._player_2 (Board.mutate r f b) = Board._player_2 b.
Proof. unfold Board.mutate. by case_bool_decide. Qed.

Lemma rows_mutate r f b :
  length (Board._board (Board.mutate r f b)) = length (Board._board b).
Proof. unfold Board.mutate. case_bool_decide; [|done]. simpl. by rewrite length_alter. Qed.

Lemma cols_mutate r f b (n : nat) :
  Forall (fun line => length line = n) (Board._board b) →
  Forall (fun line => length line = n) (Board._board (Board.mutate r f b)).
Proof.
  intros H. unfold Board.mutate. case_bool_decide; [|done]. simpl.
  apply Forall_alter; [done|]. intros line _ <-. by rewrite length_alter.
Qed.

Lemma mutate_mutate_eq r f g b :
  Board.mutate r g (Board.mutate r f b) = Board.mutate r (g ∘ f) b.
Proof.
  unfold Board.mutate. case_bool_decide; [|done]. simpl. f_equal.
  rewrite list_alter_alter_eq. apply list_alter_ext; [|done].
  intros line _. simpl. by rewrite list_alter_alter_eq.
Qed.

Lemma mutate_mutate_ne r r' f g b :
  r ≠ r' →
  Board.mutate r g (Board.mutate r' f b) = Board.mutate r' f (Board.mutate r g b).
Proof.
  intros Hne. destruct r as [c l], r' as [c' l']. unfold Board.mutate. simpl.
  repeat case_bool_decide; simpl; try done. f_equal.
  destruct (decide (l = l')) as [->|Hl].
  - rewrite !list_alter_alter_eq. apply list_alter_ext; [|done].
    intros line _. simpl. apply list_alter_alter_ne.
    intros E. apply Hne. f_equal. lia.
  - apply list_alter_alter_ne. lia.
Qed.

Lemma mutate_id r f b : f (Board.tile b r) = Board.tile b r → Board.mutate r f b = b.
Proof.
  intros Hf. destruct b as [p1 p2 g]. unfold Board.mutate, Board.tile, Board.cell in *.
  simpl in *. case_bool_decide; [|done]. f_equal.
  apply list_eq. intros i. destruct (decide (i = Z.to_nat r.2)) as [->|Hi].
  - rewrite list_lookup_alter_eq.
    destruct (g !! Z.to_nat r.2) as [line|] eqn:Hline; simpl in *; [|done].
    f_equal. apply list_eq. intros j.
    destruct (decide (j = Z.to_nat r.1)) as [->|Hj].
    + rewrite list_lookup_alter_eq.
      destruct (line !! Z.to_nat r.1) as [t|]; simpl in *; [|done]. by rewrite Hf.
    + by rewrite list_lookup_alter_ne.
  - by rewrite list_lookup_alter_ne.
Qed.

End Heap.

(** ** Facts about a well-formed board *)

Lemma in_grid_cases (x : ref) :
  in_grid x →
  (x.1 = 0 ∨ x.1 = 1 ∨ x.1 = 2 ∨ x.1 = 3 ∨ x.1 = 4 ∨ x.1 = 5 ∨ x.1 = 6 ∨ x.1 = 7 ∨ x.1 = 8)
  ∧ (x.2 = 0 ∨ x.2 = 1 ∨ x.2 = 2 ∨ x.2 = 3 ∨ x.2 = 4 ∨ x.2 = 5 ∨ x.2 = 6 ∨ x.2 = 7 ∨ x.2 = 8).
Proof. unfold in_grid. lia. Qed.

Lemma opposite_opposite d : opposite (opposite d) = d.
Proof. by destruct d. Qed.

Lemma toward_opposite d x : toward (opposite d) (toward d x) = x.
Proof. destruct x as [c l], d; unfold toward; simpl; f_equal; lia. Qed.

Lemma toward_ne d x : toward d x ≠ x.
Proof. destruct x as [c l], d; unfold toward; simpl; intros [=]; lia. Qed.

Lemma toward_inj d d' x : toward d x = toward d' x → d = d'.
Proof. destruct x as [c l], d, d'; unfold toward; simpl; intros [=]; (done || lia). Qed.

Section WellFormed.

Variable b : Board.t.
Hypothesis Hok : board_ok b.

Lemma cell_in_grid x : in_grid x → is_Some (Board.cell (Board._board b) x).
Proof.
  intros [[? ?] [? ?]]. unfold Board.cell. rewrite bool_decide_eq_true_2 by lia.
  destruct (lookup_lt_is_Some_2 (Board._board b) (Z.to_nat x.2)) as [line Hline].
  { rewrite (ok_rows _ Hok). lia. }
  rewrite Hline. simpl. apply lookup_lt_is_Some_2.
  pose proof (ok_cols _ Hok) as Hc. rewrite Forall_forall in Hc.
  rewrite (Hc line) by (eapply list_elem_of_lookup_2; done). lia.
Qed.

Lemma at_in_grid row col : in_grid (col, row) → Board.at_ b row col = Ok (col, row).
Proof.
  intros Hg. destruct (cell_in_grid _ Hg) as [t Ht]. destruct Hg as [[? ?] [? ?]].
  unfold Board.cell in Ht. simpl in *. rewrite bool_decide_eq_true_2 in Ht by lia.
  unfold Board.at_, getitem. rewrite !bool_decide_eq_true_2 by lia.
  destruct (Board._board b !! Z.to_nat row) as [line|]; simpl in *; [|done].
  by rewrite Ht.
Qed.

Lemma tile_mutate r f x :
  in_grid r →
  Board.tile (Board.mutate r f b) x
  = if decide (x = r) then f (Board.tile b r) else Board.tile b x.
Proof.
  intros Hr. case_decide as Hx.
  - subst. apply tile_mutate_eq. by apply cell_in_grid.
  - by apply tile_mutate_ne.
Qed.

(** An open link leads to the grid neighbour, which is on the board and
    holds the link back. *)
Lemma link_target x d y :
  in_grid x → link (Board.tile b x) d = Some y →
  y = toward d x ∧ in_grid y ∧ link (Board.tile b y) (opposite d) = Some x.
Proof. intros Hx Hl. pose proof (ok_links _ Hok x d Hx) as H. unfold link_ok in H. by rewrite Hl in H. Qed.

Lemma link_symmetric x d :
  in_grid x → in_grid (toward d x) →
  is_Some (link (Board.tile b x) d)
  ↔ is_Some (link (Board.tile b (toward d x)) (opposite d)).
Proof.
  intros Hx Hy. split; intros [y Hl].
  - apply link_target in Hl as (-> & _ & Hl); [|done]. by eexists.
  - apply link_target in Hl as (-> & _ & Hl); [|done].
    rewrite opposite_opposite, toward_opposite in Hl. by eexists.
Qed.

(** A mutation that keeps the links and the coordinate of the tile keeps
    the board well-formed. *)
Lemma board_ok_mutate r f :
  in_grid r →
  (∀ t d, link (f t) d = link t d) →
  (∀ t, Tile._board_coord (f t) = Tile._board_coord t) →
  board_ok (Board.mutate r f b).
Proof.
  intros Hr Hl Hc. split.
  - rewrite rows_mutate. apply Hok.
  - apply cols_mutate, Hok.
  - intros x Hx. rewrite tile_mutate by done. case_decide; subst; [rewrite Hc|]; by apply Hok.
  - intros x d Hx. unfold link_ok. rewrite tile_mutate by done.
    assert (Hlx : link (if decide (x = r) then f (Board.tile b r) else Board.tile b x) d
                  = link (Board.tile b x) d).
    { case_decide; subst; [apply Hl|done]. }
    rewrite Hlx. destruct (link (Board.tile b x) d) as [y|] eqn:Hy; [|done].
    apply link_target in Hy as (-> & Hg & Hback); [|done].
    split_and!; [done..|]. rewrite tile_mutate by done. clear Hlx.
    case_decide as E; [rewrite Hl, <- E|]; done.
  - rewrite player_1_mutate. apply Hok.
  - rewrite player_2_mutate. apply Hok.
Qed.

End WellFormed.

Lemma board_ok_init : board_ok Board.__init__.
Proof.
  split.
  - by vm_compute.
  - apply (bool_decide_unpack _). by vm_compute.
  - intros [c l] Hx. apply in_grid_cases in Hx as [Hc Hl]. simpl in *.
    destruct Hc as [->|[->|[->|[->|[->|[->|[->|[->| ->]]]]]]]];
    destruct Hl as [->|[->|[->|[->|[->|[->|[->|[->| ->]]]]]]]]; by vm_compute.
  - intros [c l] d Hx. apply in_grid_cases in Hx as [Hc Hl]. simpl in *.
    apply (bool_decide_unpack _).
    destruct Hc as [->|[->|[->|[->|[->|[->|[->|[->| ->]]]]]]]];
    destruct Hl as [->|[->|[->|[->|[->|[->|[->|[->| ->]]]]]]]];
    destruct d; by vm_compute.
  - by vm_compute.
  - by vm_compute.
Qed.

Lemma pawns_ok_init : pawns_ok Board.__init__.
Proof.
  split.
  - by vm_compute.
  - intros [c l] Hx. apply in_grid_cases in Hx as [Hc Hl]. simpl in *.
    destruct Hc as [->|[->|[->|[->|[->|[->|[->|[->| ->]]]]]]]];
    destruct Hl as [->|[->|[->|[->|[->|[->|[->|[->| ->]]]]]]]]; by vm_compute.
Qed.

(** ** Pawn moves *)

Lemma get_direction_heading t col_dir row_dir :
  Tile.get_direction t (col_dir, row_dir)
  = match heading col_dir row_dir with Some d => link t d | None => None end.
Proof. unfold Tile.get_direction, heading. simpl. by repeat case_bool_decide. Qed.

Lemma move_pawn_outside b player new_pos :
  ¬ in_grid new_pos → Board.move_pawn player new_pos b = Ok (false, b).
Proof.
  intros H. unfold Board.move_pawn. rewrite bool_decide_eq_true_2; [done|].
  unfold in_grid in H. lia.
Qed.

Lemma move_pawn_occupied b player new_pos :
  board_ok b → in_grid new_pos → Tile._has_pawn (Board.tile b new_pos) ≠ 0 →
  Board.move_pawn player new_pos b = Ok (false, b).
Proof.
  intros Hok Hg Hp. unfold Board.move_pawn.
  rewrite bool_decide_eq_false_2 by (unfold in_grid in Hg; lia).
  destruct new_pos as [c l]. simpl. rewrite (at_in_grid b Hok l c) by done. simpl.
  by rewrite bool_decide_eq_true_2.
Qed.

Lemma move_pawn_free b player new_pos :
  board_ok b → in_grid new_pos → Tile._has_pawn (Board.tile b new_pos) = 0 →
  Board.move_pawn player new_pos b
  = Ok (if legal b player new_pos then (true, moved player new_pos b) else (false, b)).
Proof.
  intros Hok Hg Hp. unfold Board.move_pawn.
  rewrite bool_decide_eq_false_2 by (unfold in_grid in Hg; lia).
  destruct new_pos as [c l]. simpl. rewrite (at_in_grid b Hok l c) by done. simpl.
  rewrite bool_decide_eq_false_2 by (unfold Tile.get_has_pawn; rewrite Hp; lia).
  assert (Hcur : in_grid (position_of b player)).
  { unfold position_of. case_bool_decide; apply Hok. }
  fold (position_of b player).
  destruct (position_of b player) as [c0 l0] eqn:Hpos. simpl.
  rewrite (at_in_grid b Hok l0 c0) by done. simpl.
  unfold legal, moved. rewrite Hpos. simpl.
  by destruct (_ || _ || _).
Qed.

Lemma move_pawn_cases b player new_pos :
  board_ok b →
  Board.move_pawn player new_pos b = Ok (true, moved player new_pos b)
  ∧ in_grid new_pos ∧ Tile._has_pawn (Board.tile b new_pos) = 0
  ∧ legal b player new_pos = true
  ∨ Board.move_pawn player new_pos b = Ok (false, b).
Proof.
  intros Hok. destruct (decide (in_grid new_pos)) as [Hg|Hg].
  - destruct (decide (Tile._has_pawn (Board.tile b new_pos) = 0)) as [Hp|Hp].
    + rewrite move_pawn_free by done. destruct (legal b player new_pos); eauto.
    + right. by apply move_pawn_occupied.
  - right. by apply move_pawn_outside.
Qed.

Section Shapes.

Variables (b : Board.t) (player : Z) (target : Z * Z).
Hypothesis Hok : board_ok b.

Let cur := position_of b player.
Let row_dir := target.2 - cur.2.
Let col_dir := target.1 - cur.1.

Lemma position_in_grid : in_grid (position_of b player).
Proof. unfold position_of. case_bool_decide; apply Hok. Qed.

Lemma legal_regular_shape :
  (Z.abs row_dir = 1 ∧ col_dir = 0) ∨ (row_dir = 0 ∧ Z.abs col_dir = 1) →
  legal b player target = true ↔ regular_legal b cur target.
Proof.
  intros Hshape. unfold legal. fold cur row_dir col_dir.
  unfold Board._can_move_regularly, Board._can_jump_pawn, Board._can_move_diagonally.
  rewrite (bool_decide_eq_true_2 (_ ∧ _)) by lia.
  rewrite !(bool_decide_eq_false_2 (_ ∧ _)) by lia.
  rewrite !orb_false_r, get_direction_heading.
  assert (∃ d, heading col_dir row_dir = Some d ∧ toward d cur = target) as (d & -> & Hd).
  { unfold heading, toward, row_dir, col_dir in *. destruct cur as [c l], target as [c' l'].
    simpl in *. repeat case_bool_decide; try lia; eexists; (split; [done|]); simpl; f_equal; lia. }
  unfold regular_legal. split.
  - intros H. exists d. split; [done|]. by destruct (link (Board.tile b cur) d).
  - intros (d' & Hd' & [y Hy]). rewrite <- Hd in Hd'. apply toward_inj in Hd' as ->.
    by rewrite Hy.
Qed.

Lemma legal_jump_shape :
  (Z.abs row_dir = 2 ∧ col_dir = 0) ∨ (row_dir = 0 ∧ Z.abs col_dir = 2) →
  legal b player target = true ↔ jump_legal b cur target.
Proof.
  intros Hshape. unfold legal. fold cur row_dir col_dir.
  unfold Board._can_move_regularly, Board._can_jump_pawn, Board._can_move_diagonally.
  rewrite (bool_decide_eq_false_2 (_ ∧ _)) by lia.
  rewrite (bool_decide_eq_true_2 (_ ∧ _)) by lia.
  rewrite (bool_decide_eq_false_2 (_ ∧ _)) by lia.
  rewrite orb_false_r, orb_false_l.
  assert (∃ d, heading col_dir row_dir = Some d ∧ toward d (toward d cur) = target)
    as (d & Hh & Hd).
  { unfold heading, toward, row_dir, col_dir in *. destruct cur as [c l], target as [c' l'].
    simpl in *. repeat case_bool_decide; try lia; eexists; (split; [done|]); simpl; f_equal; lia. }
  assert (Hcur : in_grid cur) by apply position_in_grid.
  rewrite get_direction_heading, Hh.
  unfold jump_legal, Tile.get_has_pawn. split.
  - intros H. exists d. split; [done|].
    destruct (link (Board.tile b cur) d) as [mid|] eqn:Hmid; [|done].
    apply (link_target b Hok) in Hmid as (-> & _ & _); [|done].
    case_bool_decide; [|done]. rewrite get_direction_heading, Hh in H.
    by destruct (link (Board.tile b (toward d cur)) d).
  - intros (d' & Hd' & [mid Hmid] & Hpawn & [y Hy]).
    assert (d' = d) as ->.
    { rewrite <- Hd in Hd'. clear -Hd'. destruct cur as [c l].
      destruct d, d'; try done; unfold toward in Hd'; simpl in Hd'; injection Hd'; lia. }
    rewrite Hmid. apply (link_target b Hok) in Hmid as (-> & _ & _); [|done].
    rewrite bool_decide_eq_true_2 by done. by rewrite get_direction_heading, Hh, Hy.
Qed.

Lemma get_direction_column t c :
  c ≠ 0 → Tile.get_direction t (c, 0) = link t (column_way c).
Proof.
  intros. rewrite get_direction_heading. unfold heading, column_way.
  repeat case_bool_decide; (done || lia).
Qed.

Lemma get_direction_row t r :
  r ≠ 0 → Tile.get_direction t (0, r) = link t (row_way r).
Proof.
  intros. rewrite get_direction_heading. unfold heading, row_way.
  repeat case_bool_decide; (done || lia).
Qed.

(** On a board with consistent markers, a pawn on another cell than the
    player's is the opponent's. *)
Lemma pawn_is_opponent x :
  pawns_ok b → player = 1 ∨ player = 2 → in_grid x → x ≠ cur →
  Tile._has_pawn (Board.tile b x) ≠ 0
  ↔ Tile._has_pawn (Board.tile b x) = opponent player.
Proof.
  intros Hp Hpl Hx Hne. rewrite (pawns_marker _ Hp) by done.
  unfold marker, opponent, cur, position_of in *.
  destruct Hpl as [-> | ->]; simpl in *; repeat case_decide; try done; lia.
Qed.

Lemma legal_diagonal_pawn :
  Z.abs row_dir = 1 → Z.abs col_dir = 1 →
  legal b player target = true
  ↔ pawn_blocked b cur (column_way col_dir) (row_way row_dir)
    ∨ (no_pawn_behind b cur (column_way col_dir)
       ∧ pawn_blocked b cur (row_way row_dir) (column_way col_dir)).
Proof.
  intros Hr Hc. unfold legal. fold cur row_dir col_dir.
  unfold Board._can_move_regularly, Board._can_jump_pawn, Board._can_move_diagonally.
  rewrite !(bool_decide_eq_false_2 (_ ∧ _)) by lia.
  rewrite (bool_decide_eq_true_2 (_ ∧ _)) by lia. simpl.
  rewrite get_direction_column, get_direction_row by lia.
  set (dc := column_way col_dir). set (dr := row_way row_dir).
  unfold Tile.get_has_pawn.
  assert (Hside : ∀ d side x, link (Board.tile b cur) d = Some x →
            Tile._has_pawn (Board.tile b x) ≠ 0 →
            (if bool_decide (link (Board.tile b x) d = None
                             ∧ link (Board.tile b x) side ≠ None)
             then true else false) = true
            ↔ pawn_blocked b cur d side).
  { intros d side x Hl Hpawn. unfold pawn_blocked. rewrite Hl. split.
    - case_bool_decide as H; [|done]. intros _. destruct H as [H1 H2].
      exists x. split_and!; [done..|]. by destruct (link (Board.tile b x) side).
    - intros (? & [= <-] & _ & H1 & [y H2]).
      rewrite bool_decide_eq_true_2; [done|]. by rewrite H1, H2. }
  assert (Hnone : ∀ d side, link (Board.tile b cur) d = None →
            ¬ pawn_blocked b cur d side).
  { intros d side Hl (? & H & _). by rewrite Hl in H. }
  assert (Hempty : ∀ d side x, link (Board.tile b cur) d = Some x →
            ¬ Tile._has_pawn (Board.tile b x) ≠ 0 →
            ¬ pawn_blocked b cur d side).
  { intros d side x Hl Hpawn (? & H & Ho & _). rewrite Hl in H. by injection H as <-. }
  assert (Hother :
    match link (Board.tile b cur) dr with
    | Some change_row =>
        if bool_decide (Tile._has_pawn (Board.tile b change_row) ≠ 0) then
          if bool_decide
               (Tile.get_direction (Board.tile b change_row) (0, row_dir) = None
                ∧ Tile.get_direction (Board.tile b change_row) (col_dir, 0) ≠ None)
          then true else false
        else false
    | None => false
    end = true ↔ pawn_blocked b cur dr dc).
  { destruct (link (Board.tile b cur) dr) as [cr|] eqn:Hcr.
    - rewrite get_direction_column, get_direction_row by lia.
      destruct (decide (Tile._has_pawn (Board.tile b cr) ≠ 0)) as [Hpawn|Hpawn].
      + rewrite (bool_decide_eq_true_2 (_ ≠ 0)) by done. cbv iota. by apply Hside.
      + rewrite (bool_decide_eq_false_2 (_ ≠ 0)) by done. cbv iota.
        split; [done|]. intros H. by eapply Hempty in H.
    - split; [done|]. intros H. by eapply Hnone in H. }
  unfold no_pawn_behind.
  destruct (link (Board.tile b cur) dc) as [cc|] eqn:Hcc.
  - rewrite get_direction_column, get_direction_row by lia. fold dc dr.
    destruct (decide (Tile._has_pawn (Board.tile b cc) ≠ 0)) as [Hpawn|Hpawn].
    + rewrite (bool_decide_eq_true_2 (_ ≠ 0)) by done. cbv iota.
      rewrite (Hside dc dr cc) by done. split; [by left|].
      intros [H|[H _]]; [done|]. by rewrite H in Hpawn.
    + rewrite (bool_decide_eq_false_2 (_ ≠ 0)) by done. cbv iota.
      rewrite Hother. split.
      * intros H. right. split; [|done]. lia.
      * intros [H|[_ H]]; [|done]. by eapply Hempty in H.
  - rewrite Hother. split; [by right|].
    intros [H|[_ H]]; [|done]. by eapply Hnone in H.
Qed.

(** On a board with consistent markers the pawn behind a link of the player's
    cell is the opponent's. *)
Lemma blocked_jump_pawn d side :
  pawns_ok b → player = 1 ∨ player = 2 →
  blocked_jump b player cur d side ↔ pawn_blocked b cur d side.
Proof.
  intros Hp Hpl. assert (Hcur : in_grid cur) by apply position_in_grid.
  unfold blocked_jump, pawn_blocked.
  split; intros (x & Hl & Hpawn & Hrest); exists x; (split_and!; [done| |apply Hrest..]);
    apply (link_target b Hok) in Hl as (-> & Hg & _); try done;
    apply (pawn_is_opponent (toward d cur)); auto using toward_ne.
Qed.

Lemma legal_diagonal_shape :
  pawns_ok b → player = 1 ∨ player = 2 →
  Z.abs row_dir = 1 → Z.abs col_dir = 1 →
  legal b player target = true
  ↔ side_step_legal b player cur (column_way col_dir) (row_way row_dir).
Proof.
  intros Hp Hpl Hr Hc. rewrite legal_diagonal_pawn by done.
  unfold side_step_legal. by rewrite !blocked_jump_pawn.
Qed.

End Shapes.

(** ** The board after a move *)

Lemma board_ok_players b p1 p2 :
  board_ok b → in_grid p1 → in_grid p2 → board_ok (Board.mk p1 p2 (Board._board b)).
Proof. intros [] ??. by split. Qed.

Lemma set_has_pawn_link pawn t d : link (Tile.set_has_pawn pawn t) d = link t d.
Proof. by destruct d. Qed.

Section Moved.

Variables (b : Board.t) (player : Z) (target : Z * Z).
Hypotheses (Hok : board_ok b) (Htarget : in_grid target).

Let cur := position_of b player.

Lemma tile_moved x :
  Board.tile (moved player target b) x
  = if decide (x = target) then
      Tile.set_has_pawn player
        (if decide (target = cur) then Tile.set_has_pawn 0 (Board.tile b cur)
         else Board.tile b target)
    else if decide (x = cur) then Tile.set_has_pawn 0 (Board.tile b cur)
    else Board.tile b x.
Proof.
  assert (Hcur : in_grid cur) by by apply position_in_grid.
  assert (Hok1 : board_ok (Board.mutate cur (Tile.set_has_pawn 0) b)).
  { apply board_ok_mutate; [done..|by intros; apply set_has_pawn_link|done]. }
  transitivity (Board.tile (Board.mutate target (Tile.set_has_pawn player)
                   (Board.mutate cur (Tile.set_has_pawn 0) b)) x).
  { unfold moved. fold cur. by case_bool_decide. }
  rewrite tile_mutate by done. rewrite !(tile_mutate b) by done.
  by repeat case_decide.
Qed.

Lemma board_ok_moved : board_ok (moved player target b).
Proof.
  assert (Hcur : in_grid cur) by by apply position_in_grid.
  assert (Hok1 : board_ok (Board.mutate cur (Tile.set_has_pawn 0) b)).
  { apply board_ok_mutate; [done..|by intros; apply set_has_pawn_link|done]. }
  assert (Hok2 : board_ok (Board.mutate target (Tile.set_has_pawn player)
                   (Board.mutate cur (Tile.set_has_pawn 0) b))).
  { apply board_ok_mutate; [done..|by intros; apply set_has_pawn_link|done]. }
  unfold moved. fold cur.
  case_bool_decide; apply board_ok_players; rewrite ?player_1_mutate, ?player_2_mutate;
    (done || apply Hok).
Qed.

Lemma player_1_moved :
  Board._player_1 (moved player target b)
  = if bool_decide (player = 1) then target else Board._player_1 b.
Proof. unfold moved. case_bool_decide; simpl; by rewrite ?player_1_mutate. Qed.

Lemma player_2_moved :
  Board._player_2 (moved player target b)
  = if bool_decide (player = 1) then Board._player_2 b else target.
Proof. unfold moved. case_bool_decide; simpl; by rewrite ?player_2_mutate. Qed.

Lemma pawns_ok_moved :
  pawns_ok b → player = 1 ∨ player = 2 →
  Tile._has_pawn (Board.tile b target) = 0 →
  pawns_ok (moved player target b).
Proof.
  intros Hp Hpl Hfree.
  assert (Hcur : in_grid cur) by by apply position_in_grid.
  pose proof (pawns_apart _ Hp) as Hapart.
  assert (H1 : Tile._has_pawn (Board.tile b (Board._player_1 b)) = 1).
  { rewrite (pawns_marker _ Hp) by apply Hok. unfold marker. by rewrite decide_True. }
  assert (H2 : Tile._has_pawn (Board.tile b (Board._player_2 b)) = 2).
  { rewrite (pawns_marker _ Hp) by apply Hok. unfold marker.
    by rewrite decide_False, decide_True. }
  assert (Hne1 : target ≠ Board._player_1 b) by (intros ->; lia).
  assert (Hne2 : target ≠ Board._player_2 b) by (intros ->; lia).
  split.
  - rewrite player_1_moved, player_2_moved. by case_bool_decide.
  - intros x Hx. rewrite tile_moved. unfold marker.
    rewrite player_1_moved, player_2_moved.
    pose proof (pawns_marker _ Hp x Hx) as Hm. unfold marker in Hm.
    unfold cur, position_of in *.
    destruct Hpl as [-> | ->]; simpl in *; repeat case_decide; subst; simpl; congruence.
Qed.

End Moved.

(** ** Fences *)

Lemma link_close d0 t d :
  link (Tile.close_direction (side_name d0) t) d = if decide (d = d0) then None else link t d.
Proof. by destruct d0, d. Qed.

Lemma link_open d0 y t d :
  link (Tile.open_direction (side_name d0) y t) d
  = if decide (d = d0) then Some y else link t d.
Proof. by destruct d0, d. Qed.

Lemma has_pawn_close d0 t :
  Tile._has_pawn (Tile.close_direction (side_name d0) t) = Tile._has_pawn t.
Proof. by destruct d0. Qed.

Lemma board_coord_close d0 t :
  Tile._board_coord (Tile.close_direction (side_name d0) t) = Tile._board_coord t.
Proof. by destruct d0. Qed.

Lemma open_close d0 y t :
  link t d0 = Some y →
  Tile.open_direction (side_name d0) y (Tile.close_direction (side_name d0) t) = t.
Proof. destruct t, d0; cbv; by intros ->. Qed.

Section Fenced.

Variables (b : Board.t) (d : compass) (x : ref).
Hypotheses (Hok : board_ok b) (Hx : in_grid x).
Hypothesis Hopen : is_Some (link (Board.tile b x) d).

Lemma fenced_neighbour :
  link (Board.tile b x) d = Some (toward d x) ∧ in_grid (toward d x)
  ∧ link (Board.tile b (toward d x)) (opposite d) = Some x.
Proof.
  destruct Hopen as [y Hy].
  pose proof (link_target b Hok x d y Hx Hy) as (-> & ? & ?). done.
Qed.

Lemma tile_fenced z :
  Board.tile (fenced d x b) z
  = if decide (z = toward d x)
    then Tile.close_direction (side_name (opposite d)) (Board.tile b z)
    else if decide (z = x) then Tile.close_direction (side_name d) (Board.tile b z)
    else Board.tile b z.
Proof.
  destruct fenced_neighbour as (_ & Hy & _). unfold fenced.
  pose proof (toward_ne d x) as Hne.
  case_decide as Hz.
  - subst z. rewrite tile_mutate_eq.
    + by rewrite tile_mutate_ne.
    + apply cell_mutate_is_Some. by apply cell_in_grid.
  - rewrite tile_mutate_ne by done. rewrite (tile_mutate b Hok) by done.
    case_decide; by subst.
Qed.

Lemma link_fenced z d' :
  link (Board.tile (fenced d x b) z) d'
  = if decide ((z = x ∧ d' = d) ∨ (z = toward d x ∧ d' = opposite d)) then None
    else link (Board.tile b z) d'.
Proof.
  rewrite tile_fenced. pose proof (toward_ne d x) as Hne.
  destruct (decide (z = toward d x)) as [->|Hz].
  - rewrite link_close. destruct (decide (d' = opposite d)) as [->|Hd].
    + by rewrite decide_True by auto.
    + rewrite decide_False; [done|]. by intros [[? _]|[_ ?]].
  - destruct (decide (z = x)) as [->|Hz'].
    + rewrite link_close. destruct (decide (d' = d)) as [->|Hd].
      * by rewrite decide_True by auto.
      * rewrite decide_False; [done|]. by intros [[_ ?]|[? _]].
    + rewrite decide_False; [done|]. by intros [[? _]|[? _]].
Qed.

Lemma has_pawn_fenced z :
  Tile._has_pawn (Board.tile (fenced d x b) z) = Tile._has_pawn (Board.tile b z).
Proof. rewrite tile_fenced. repeat case_decide; by rewrite ?has_pawn_close. Qed.

Lemma board_coord_fenced z :
  Tile._board_coord (Board.tile (fenced d x b) z) = Tile._board_coord (Board.tile b z).
Proof. rewrite tile_fenced. repeat case_decide; by rewrite ?board_coord_close. Qed.

Lemma player_1_fenced : Board._player_1 (fenced d x b) = Board._player_1 b.
Proof. unfold fenced. by rewrite !player_1_mutate. Qed.

Lemma player_2_fenced : Board._player_2 (fenced d x b) = Board._player_2 b.
Proof. unfold fenced. by rewrite !player_2_mutate. Qed.

Lemma board_ok_fenced : board_ok (fenced d x b).
Proof.
  split.
  - unfold fenced. rewrite !rows_mutate. apply Hok.
  - unfold fenced. do 2 apply cols_mutate. apply Hok.
  - intros z Hz. rewrite board_coord_fenced. by apply Hok.
  - intros z d' Hz. unfold link_ok. rewrite link_fenced.
    case_decide as Hcase; [done|].
    destruct (link (Board.tile b z) d') as [w|] eqn:Hw; [|done].
    apply (link_target b Hok) in Hw as (-> & Hg & Hback); [|done].
    split_and!; [done..|]. rewrite link_fenced, decide_False; [done|].
    intros [[E1 E2]|[E1 E2]]; apply Hcase.
    + right. by rewrite <- E2, <- E1, toward_opposite, opposite_opposite.
    + left. assert (d' = d) as -> by (by destruct d, d').
      split; [|done]. destruct z as [c l], x as [c' l'].
      destruct d; unfold toward in E1; simpl in E1; injection E1; intros; f_equal; lia.
  - rewrite player_1_fenced. apply Hok.
  - rewrite player_2_fenced. apply Hok.
Qed.

(** Reopening both sides of the link gives the board back. *)
Lemma reopen_fenced :
  Board.mutate (toward d x) (Tile.open_direction (side_name (opposite d)) x)
    (Board.mutate x (Tile.open_direction (side_name d) (toward d x)) (fenced d x b))
  = b.
Proof.
  destruct fenced_neighbour as (Hl & Hy & Hback). unfold fenced.
  pose proof (toward_ne d x) as Hne.
  rewrite (mutate_mutate_ne x (toward d x)) by done.
  rewrite !mutate_mutate_eq.
  rewrite (mutate_id x); [apply mutate_id|]; simpl; by apply open_close.
Qed.

End Fenced.

(** ** The search of [_fair_play] *)

Lemma valid_directions_link t y :
  y ∈ Tile.get_valid_directions t ↔ ∃ d, link t d = Some y.
Proof.
  unfold Tile.get_valid_directions. destruct t as [n s e w p c]. simpl. split.
  - intros H. destruct n, s, e, w; simpl in H;
      repeat (apply elem_of_cons in H as [->|H]; [|]);
      try (by apply elem_of_nil in H);
      first [by exists North | by exists South | by exists East | by exists West].
  - intros [[] H]; simpl in H; subst; repeat case_match; set_solver.
Qed.

Lemma valid_directions_length t : (length (Tile.get_valid_directions t) ≤ 4)%nat.
Proof.
  unfold Tile.get_valid_directions.
  destruct (Tile._north t), (Tile._south t), (Tile._east t), (Tile._west t); simpl; lia.
Qed.

Lemma all_tiles_in_grid y : in_grid y → PyTile y ∈ all_tiles.
Proof.
  intros [[??][??]]. unfold all_tiles. apply elem_of_list_to_set.
  apply list_elem_of_bind. exists y.1. split; [|apply elem_of_seqZ; lia].
  apply list_elem_of_bind. exists y.2. split; [|apply elem_of_seqZ; lia].
  destruct y. set_solver.
Qed.

Lemma all_tiles_size : size all_tiles = 81%nat.
Proof. by vm_compute. Qed.

Lemma enqueue_cons y new_paths paths paths_taken :
  Board.enqueue (y :: new_paths) paths paths_taken
  = if bool_decide (PyTile y ∉ paths_taken)
    then Board.enqueue new_paths (paths ++ [y]) (paths_taken ∪ {[PyTile y]})
    else Board.enqueue new_paths paths paths_taken.
Proof. unfold Board.enqueue. simpl. by case_bool_decide. Qed.

Lemma work_left_fresh y paths paths_taken :
  in_grid y → PyTile y ∉ paths_taken →
  work_left (paths ++ [y]) (paths_taken ∪ {[PyTile y]}) = work_left paths paths_taken.
Proof.
  intros Hy Hfresh. unfold work_left. rewrite length_app. simpl.
  assert (all_tiles ∖ paths_taken
          = {[PyTile y]} ∪ all_tiles ∖ (paths_taken ∪ {[PyTile y]})) as ->.
  { apply set_eq. intros o. pose proof (all_tiles_in_grid y Hy).
    destruct (decide (o = PyTile y)) as [->|]; set_solver. }
  assert (Hdisj : ({[PyTile y]} : gset pyobj) ## all_tiles ∖ (paths_taken ∪ {[PyTile y]}))
    by set_solver.
  pose proof (size_union (C:=gset pyobj) _ _ Hdisj) as ->.
  rewrite size_singleton. lia.
Qed.

Lemma enqueue_spec new_paths : ∀ paths paths_taken,
  ∃ fresh,
    (Board.enqueue new_paths paths paths_taken).1 = paths ++ fresh
    ∧ (∀ y, y ∈ fresh → y ∈ new_paths)
    ∧ (∀ y, y ∈ new_paths → PyTile y ∉ paths_taken → y ∈ fresh)
    ∧ (∀ o, o ∈ (Board.enqueue new_paths paths paths_taken).2
            ↔ o ∈ paths_taken ∨ ∃ y, y ∈ new_paths ∧ o = PyTile y)
    ∧ (Forall in_grid new_paths →
       work_left (Board.enqueue new_paths paths paths_taken).1
                 (Board.enqueue new_paths paths paths_taken).2
       = work_left paths paths_taken).
Proof.
  induction new_paths as [|n new_paths IH]; intros paths paths_taken.
  - exists []. simpl. rewrite app_nil_r. split_and!; [done|done|set_solver|set_solver|done].
  - rewrite enqueue_cons. case_bool_decide as Hn.
    + destruct (IH (paths ++ [n]) (paths_taken ∪ {[PyTile n]}))
        as (fresh & Hp & Hsub & Hall & Htaken & Hwork).
      exists (n :: fresh). split_and!.
      * by rewrite Hp, <- app_assoc.
      * intros y [->|Hy]%elem_of_cons; [left|right; auto].
      * intros y [->|Hy]%elem_of_cons Hfresh; [left|].
        destruct (decide (y = n)) as [->|Hne]; [left|].
        right. apply Hall; [done|]. set_solver.
      * intros o. rewrite Htaken. set_solver.
      * intros [Hg Hgs]%Forall_cons. rewrite Hwork by done. by apply work_left_fresh.
    + destruct (IH paths paths_taken) as (fresh & Hp & Hsub & Hall & Htaken & Hwork).
      exists fresh. split_and!.
      * done.
      * intros y Hy. right. auto.
      * intros y [->|Hy]%elem_of_cons Hfresh; [|by auto].
        done.
      * intros o. rewrite Htaken. set_solver.
      * intros [Hg Hgs]%Forall_cons. by apply Hwork.
Qed.

Section Search.

Variables (b : Board.t) (destination : Z) (seeds : list ref).
Hypothesis Hok : board_ok b.

Lemma linked_in_grid x y : in_grid x → linked b x y → in_grid y.
Proof.
  intros Hx [d Hd]%valid_directions_link.
  by apply (link_target b Hok) in Hd as (_ & ? & _).
Qed.

(** When the list is empty the tiles taken are closed under the links and
    none of them is in the destination row. *)
Lemma search_exhausted paths_taken :
  search_inv b destination seeds [] paths_taken →
  ¬ seeds_reach b destination seeds.
Proof.
  intros Hinv (s & y & Hs & Hpath & Hy).
  assert (Htaken : PyTile y ∈ paths_taken).
  { apply (inv_seeds _ _ _ _ _ Hinv) in Hs. clear Hy.
    induction Hpath as [|x y z Hxy _ IH]; [done|].
    apply IH. eapply (inv_done _ _ _ _ _ Hinv); [done| |done]. apply not_elem_of_nil. }
  apply (inv_done _ _ _ _ _ Hinv) in Htaken as [Hrow _]; [done|]. apply not_elem_of_nil.
Qed.

(** One turn of the loop keeps the invariant. *)
Lemma search_step head rest paths_taken :
  search_inv b destination seeds (head :: rest) paths_taken →
  head.2 ≠ destination →
  let next := Board.enqueue (Tile.get_valid_directions (Board.tile b head))
                (head :: rest) paths_taken in
  search_inv b destination seeds (tail next.1) next.2
  ∧ (S (work_left (tail next.1) next.2) = work_left (head :: rest) paths_taken)%nat.
Proof.
  intros Hinv Hrow next.
  assert (Hhead : in_grid head).
  { apply (inv_grid _ _ _ _ _ Hinv), (inv_waiting _ _ _ _ _ Hinv). by left. }
  destruct (enqueue_spec (Tile.get_valid_directions (Board.tile b head))
              (head :: rest) paths_taken)
    as (fresh & Hp & Hsub & Hall & Htaken & Hwork).
  fold next in Hp, Htaken, Hwork.
  assert (Hgrid : Forall in_grid (Tile.get_valid_directions (Board.tile b head))).
  { apply Forall_forall. intros y Hy. by eapply linked_in_grid. }
  rewrite Hp. simpl. split.
  - split.
    + intros y [Hy|Hy]%elem_of_app; apply Htaken.
      * left. apply (inv_waiting _ _ _ _ _ Hinv). by right.
      * right. eauto.
    + intros y [Hy|(z & Hz & [= ->])]%Htaken.
      * by apply (inv_grid _ _ _ _ _ Hinv).
      * by eapply linked_in_grid.
    + intros y [Hy|(z & Hz & [= ->])]%Htaken.
      * by apply (inv_reached _ _ _ _ _ Hinv).
      * destruct (inv_reached _ _ _ _ _ Hinv head) as (s & Hs & Hpath).
        { apply (inv_waiting _ _ _ _ _ Hinv). by left. }
        exists s. split; [done|]. by eapply rtc_r.
    + intros s Hs. apply Htaken. left. by apply (inv_seeds _ _ _ _ _ Hinv).
    + intros y Hy Hout.
      assert (Hold : PyTile y ∈ paths_taken).
      { apply Htaken in Hy as [Hy|(z & Hz & [= ->])]; [done|].
        destruct (decide (PyTile z ∈ paths_taken)) as [|Hnew]; [done|].
        exfalso. apply Hout, elem_of_app. right. by apply Hall. }
      destruct (decide (y = head)) as [->|Hne].
      * split; [done|]. intros z Hz. apply Htaken. right. eauto.
      * destruct (inv_done _ _ _ _ _ Hinv y Hold) as [Hr Hclosed].
        { intros [->|Hin]%elem_of_cons; [done|]. apply Hout, elem_of_app. by left. }
        split; [done|]. intros z Hz. apply Htaken. left. by apply Hclosed.
  - rewrite <- (Hwork Hgrid), Hp. unfold work_left. simpl. lia.
Qed.

(** The loop ends within its allotment and tells whether a seed reaches the
    destination row. *)
Lemma while_paths_spec fuel : ∀ paths paths_taken,
  search_inv b destination seeds paths paths_taken →
  (work_left paths paths_taken < fuel)%nat →
  ∃ r, Board.while_paths fuel b destination paths paths_taken = Ok r
       ∧ (r = true ↔ seeds_reach b destination seeds).
Proof.
  induction fuel as [|fuel IH]; intros paths paths_taken Hinv Hfuel; [lia|].
  destruct paths as [|head rest]; simpl.
  - exists false. split; [done|]. split; [done|].
    intros H. by apply search_exhausted in Hinv.
  - assert (Hin : PyTile head ∈ paths_taken).
    { apply (inv_waiting _ _ _ _ _ Hinv). by left. }
    assert (Hhead : in_grid head) by by apply (inv_grid _ _ _ _ _ Hinv).
    unfold Tile.get_board_coord. rewrite (ok_coord _ Hok) by done.
    case_bool_decide as Hrow.
    + exists true. split; [done|]. split; [|done]. intros _.
      destruct (inv_reached _ _ _ _ _ Hinv head Hin) as (s & Hs & Hpath).
      by exists s, head.
    + destruct (search_step head rest paths_taken Hinv Hrow) as [Hinv' Hwork].
      destruct (Board.enqueue _ _ _) as [paths' taken'] eqn:Hq. simpl in *.
      apply IH; [done|lia].
Qed.

End Search.

(** ** [_fair_play] *)

Lemma taken_start (paths : list ref) : ∀ (s0 : gset pyobj) o,
  o ∈ foldl (fun s path => s ∪ {[ PyTile path ]}) s0 paths
  ↔ o ∈ s0 ∨ ∃ y, y ∈ paths ∧ o = PyTile y.
Proof.
  induction paths as [|p paths IH]; intros s0 o; simpl.
  - set_solver.
  - rewrite IH. set_solver.
Qed.

Section FairPlay.

Variables (b : Board.t) (player : Z).
Hypothesis Hok : board_ok b.

Let position := position_of b player.
Let paths := Tile.get_valid_directions (Board.tile b position).
Let paths_taken : gset pyobj :=
  foldl (fun s path => s ∪ {[ PyTile path ]}) {[ PyTuple position ]} paths.

Lemma search_start :
  search_inv b (goal_row player) paths paths paths_taken
  ∧ (work_left paths paths_taken < Board.loop_bound)%nat.
Proof.
  assert (Hpos : in_grid position) by by apply position_in_grid.
  split; [split|].
  - intros y Hy. apply taken_start. right. eauto.
  - intros y [Hy|(z & Hz & [= ->])]%taken_start; [set_solver|].
    by eapply linked_in_grid.
  - intros y [Hy|(z & Hz & [= ->])]%taken_start; [set_solver|].
    by exists z.
  - intros y Hy. apply taken_start. right. eauto.
  - intros y [Hy|(z & Hz & [= ->])]%taken_start Hout; [set_solver|done].
  - unfold work_left, Board.loop_bound.
    pose proof (valid_directions_length (Board.tile b position)). fold paths in H.
    pose proof (subseteq_size (all_tiles ∖ paths_taken) all_tiles) as Hsize.
    rewrite all_tiles_size in Hsize. specialize (Hsize ltac:(set_solver)). lia.
Qed.

Lemma fair_play_unfold :
  Board._fair_play player b
  = Board.while_paths Board.loop_bound b (goal_row player) paths paths_taken.
Proof.
  assert (Hpos : in_grid position) by by apply position_in_grid.
  unfold Board._fair_play, paths_taken, paths, position, goal_row, position_of in *.
  unfold Board.get_player_1, Board.get_player_2.
  case_bool_decide.
  - destruct (Board._player_1 b) as [c l]. cbn [fst snd]. by rewrite at_in_grid.
  - destruct (Board._player_2 b) as [c l]. cbn [fst snd]. by rewrite at_in_grid.
Qed.

(** [_fair_play] returns, and it returns [True] exactly when a path of at
    least one link leads from the player's cell to its goal row. *)
Lemma fair_play_spec :
  ∃ r, Board._fair_play player b = Ok r ∧ (r = true ↔ has_route_via_link b player).
Proof.
  rewrite fair_play_unfold. destruct search_start as [Hinv Hwork].
  destruct (while_paths_spec b (goal_row player) paths Hok _ _ _ Hinv Hwork)
    as (r & Hr & Hiff).
  exists r. split; [done|]. rewrite Hiff.
  unfold seeds_reach, has_route_via_link, linked. by fold position paths.
Qed.

(** With symmetric links, a path of at least one link exists as soon as a
    path exists and the player's cell has an open link. *)
Lemma route_via_link_iff :
  has_route_via_link b player ↔ paths ≠ [] ∧ has_route b player.
Proof.
  assert (Hpos : in_grid position) by by apply position_in_grid.
  unfold has_route_via_link, has_route, linked. fold position paths. split.
  - intros (s & y & Hs & Hpath & Hy). split.
    + intros E. rewrite E in Hs. by apply elem_of_nil in Hs.
    + exists y. split; [|done]. by eapply rtc_l.
  - intros [Hne (y & Hpath & Hy)]. apply rtc_inv in Hpath as [<-|(s & Hs & Hpath)].
    + destruct paths as [|s rest] eqn:Hp; [done|]. exists s, position.
      assert (Hs : s ∈ paths) by (rewrite Hp; by left).
      split_and!; [by rewrite <- Hp|..|done].
      apply rtc_once. unfold paths in Hs.
      apply valid_directions_link in Hs as [d Hd].
      apply (link_target b Hok) in Hd as (_ & _ & Hback); [|done].
      apply valid_directions_link. eauto.
    + by exists s, y.
Qed.

Lemma fair_play_open :
  paths ≠ [] →
  ∃ r, Board._fair_play player b = Ok r ∧ (r = true ↔ has_route b player).
Proof.
  intros Hne. destruct fair_play_spec as (r & Hr & Hiff). exists r. split; [done|].
  rewrite Hiff, route_via_link_iff. naive_solver.
Qed.

Lemma fair_play_isolated : paths = [] → Board._fair_play player b = Ok false.
Proof.
  intros Hnil. destruct fair_play_spec as ([] & Hr & Hiff); [|done].
  destruct Hiff as [Hiff _]. apply route_via_link_iff in Hiff as [? _]; done.
Qed.

End FairPlay.

Lemma unfair_total b :
  board_ok b →
  ∃ r, Board.unfair b = Ok r
       ∧ (r = false ↔ has_route_via_link b 1 ∧ has_route_via_link b 2).
Proof.
  intros Hok. unfold Board.unfair.
  destruct (fair_play_spec b 1 Hok) as (r1 & -> & H1).
  destruct (fair_play_spec b 2 Hok) as (r2 & -> & H2). simpl.
  destruct r1, r2; simpl; eexists; (split; [done|]); naive_solver.
Qed.

(** ** [place_fence] *)

Lemma fence_side_None direction :
  fence_side direction = None → ¬ (direction = "v" ∨ direction = "h").
Proof. unfold fence_side. repeat case_decide; naive_solver. Qed.

(** What [place_fence] computes on a well-formed board. *)
Lemma place_fence_eq b direction position :
  board_ok b →
  Board.place_fence direction position b
  = match fence_side direction with
    | None => Ok (PyBool false, b)
    | Some d =>
        if decide (in_grid position) then
          match link (Board.tile b position) d with
          | None => Ok (PyBool false, b)
          | Some _ =>
              broken ← Board.unfair (fenced d position b);
              if (broken : bool) then Ok (PyStr fair_play_message, b)
              else Ok (PyBool true, fenced d position b)
          end
        else Ok (PyBool false, b)
    end.
Proof.
  intros Hok. unfold Board.place_fence.
  destruct (fence_side direction) as [d|] eqn:Hside; cycle 1.
  { apply fence_side_None in Hside. by rewrite bool_decide_eq_true_2. }
  assert (Hdir : (direction = "v" ∧ d = West) ∨ (direction = "h" ∧ d = North)).
  { unfold fence_side in Hside. repeat case_decide; naive_solver. }
  rewrite bool_decide_eq_false_2 by naive_solver.
  case_decide as Hg; cycle 1.
  { rewrite bool_decide_eq_true_2; [done|]. unfold in_grid in Hg. lia. }
  rewrite bool_decide_eq_false_2 by (unfold in_grid in Hg; lia).
  destruct position as [c l]. cbn [fst snd]. rewrite at_in_grid by done. simpl.
  unfold Board._place_fence_in_direction.
  destruct Hdir as [[-> ->]|[-> ->]]; simpl.
  - change (Tile.get_direction (Board.tile b (c, l)) (-1, 0))
      with (link (Board.tile b (c, l)) West).
    change (Tile._west (Board.tile b (c, l))) with (link (Board.tile b (c, l)) West).
    destruct (link (Board.tile b (c, l)) West) as [y|] eqn:Hy; [|done].
    assert (Hopen : is_Some (link (Board.tile b (c, l)) West)) by by rewrite Hy.
    destruct (fenced_neighbour b West (c, l) Hok Hg Hopen) as (Hy' & _).
    rewrite Hy in Hy'. injection Hy' as ->.
    change (Board.mutate (toward West (c, l)) (Tile.close_direction "east")
             (Board.mutate (c, l) (Tile.close_direction "west") b))
      with (fenced West (c, l) b).
    destruct (Board.unfair _) as [[]|]; simpl; [|done..].
    do 2 f_equal. by apply (reopen_fenced b West (c, l)).
  - change (Tile.get_direction (Board.tile b (c, l)) (0, -1))
      with (link (Board.tile b (c, l)) North).
    change (Tile._north (Board.tile b (c, l))) with (link (Board.tile b (c, l)) North).
    destruct (link (Board.tile b (c, l)) North) as [y|] eqn:Hy; [|done].
    assert (Hopen : is_Some (link (Board.tile b (c, l)) North)) by by rewrite Hy.
    destruct (fenced_neighbour b North (c, l) Hok Hg Hopen) as (Hy' & _).
    rewrite Hy in Hy'. injection Hy' as ->.
    change (Board.mutate (toward North (c, l)) (Tile.close_direction "south")
             (Board.mutate (c, l) (Tile.close_direction "north") b))
      with (fenced North (c, l) b).
    destruct (Board.unfair _) as [[]|]; simpl; [|done..].
    do 2 f_equal. by apply (reopen_fenced b North (c, l)).
Qed.

Lemma place_fence_cases b direction position :
  board_ok b →
  Board.place_fence direction position b = Ok (PyBool false, b)
  ∨ (∃ d, fence_side direction = Some d ∧ in_grid position
          ∧ is_Some (link (Board.tile b position) d)
          ∧ (Board.unfair (fenced d position b) = Ok true
             ∧ Board.place_fence direction position b = Ok (PyStr fair_play_message, b)
             ∨ Board.unfair (fenced d position b) = Ok false
               ∧ Board.place_fence direction position b
                 = Ok (PyBool true, fenced d position b))).
Proof.
  intros Hok. rewrite !place_fence_eq by done.
  destruct (fence_side direction) as [d|]; [|by left].
  case_decide as Hg; [|by left].
  destruct (link (Board.tile b position) d) as [y|] eqn:Hy; [|by left].
  assert (Hopen : is_Some (link (Board.tile b position) d)) by by rewrite Hy.
  right. exists d. split_and!; [done..|].
  destruct (unfair_total (fenced d position b)) as ([] & -> & _); simpl; auto.
  by apply board_ok_fenced.
Qed.

(** ** Sequences of calls keep the board well-formed *)

Lemma pawns_ok_fenced b d x :
  board_ok b → in_grid x → is_Some (link (Board.tile b x) d) →
  pawns_ok b → pawns_ok (fenced d x b).
Proof.
  intros Hok Hx Hopen [Hapart Hmark]. split.
  - by rewrite player_1_fenced, player_2_fenced.
  - intros z Hz. rewrite has_pawn_fenced by done. unfold marker.
    rewrite player_1_fenced, player_2_fenced. by apply Hmark.
Qed.

Lemma exec_total c b : board_ok b → ∃ b', exec c b = Ok b' ∧ board_ok b'.
Proof.
  intros Hok. destruct c as [player new_pos|direction position]; simpl.
  - destruct (move_pawn_cases b player new_pos Hok) as [(-> & Hg & _)| ->]; simpl.
    + eexists. split; [done|]. by apply board_ok_moved.
    + by exists b.
  - destruct (place_fence_cases b direction position Hok)
      as [-> |(d & _ & Hg & Hopen & [[_ ->]|[_ ->]])]; simpl.
    + by exists b.
    + by exists b.
    + eexists. split; [done|]. by apply board_ok_fenced.
Qed.

Lemma exec_pawns_ok c b b' :
  board_ok b → pawns_ok b → proper_call c → exec c b = Ok b' → pawns_ok b'.
Proof.
  intros Hok Hp Hc. destruct c as [player new_pos|direction position]; simpl in *.
  - destruct (move_pawn_cases b player new_pos Hok) as [(-> & Hg & Hfree & _)| ->]; simpl.
    + intros [= <-]. by apply pawns_ok_moved.
    + by intros [= <-].
  - destruct (place_fence_cases b direction position Hok)
      as [-> |(d & _ & Hg & Hopen & [[_ ->]|[_ ->]])]; simpl; intros [= <-]; try done.
    by apply pawns_ok_fenced.
Qed.

Lemma play_from_total cs : ∀ b, board_ok b → ∃ b', play_from b cs = Ok b' ∧ board_ok b'.
Proof.
  induction cs as [|c cs IH]; intros b Hok; simpl.
  - by exists b.
  - destruct (exec_total c b Hok) as (b1 & -> & Hok1). simpl. by apply IH.
Qed.

Lemma play_from_pawns_ok cs : ∀ b b',
  board_ok b → pawns_ok b → Forall proper_call cs → play_from b cs = Ok b' → pawns_ok b'.
Proof.
  induction cs as [|c cs IH]; intros b b' Hok Hp Hcs; simpl.
  - by intros [= <-].
  - apply Forall_cons in Hcs as [Hc Hcs].
    destruct (exec_total c b Hok) as (b1 & Hb1 & Hok1). rewrite Hb1. simpl.
    apply IH; [done| |done]. by apply (exec_pawns_ok c b).
Qed.

Lemma play_board_ok cs b : play cs = Ok b → board_ok b.
Proof.
  intros H. destruct (play_from_total cs _ board_ok_init) as (b' & Hb' & Hok).
  unfold play in H. rewrite Hb' in H. by injection H as <-.
Qed.

Lemma play_pawns_ok cs b : Forall proper_call cs → play cs = Ok b → pawns_ok b.
Proof. apply play_from_pawns_ok; [apply board_ok_init|apply pawns_ok_init]. Qed.

(** * The properties of the board engine *)

Lemma moves_free b player target :
  board_ok b → in_grid target → Tile._has_pawn (Board.tile b target) = 0 →
  (moves (Board.move_pawn player target b) ↔ legal b player target = true)
  ∧ (legal b player target ≠ true → Board.move_pawn player target b = Ok (false, b)).
Proof.
  intros Hok Hg Hfree. rewrite move_pawn_free by done. unfold moves.
  destruct (legal b player target); split; try done.
  - split; [done|]. intros _. by eexists.
  - split; [|done]. by intros [b' [=]].
Qed.

Lemma play_standoff : play standoff_calls = Ok standoff.
Proof. by vm_compute. Qed.

Lemma play_walled : play walled_calls = Ok walled.
Proof. by vm_compute. Qed.

Lemma play_cornered : play cornered_calls = Ok cornered.
Proof. by vm_compute. Qed.

Lemma sealed_fenced : sealed = fenced North (3, 8) cornered.
Proof. reflexivity. Qed.

(** The scenario of the specification: the jump over the opponent succeeds
    without a fence behind it; with the fence it fails and both diagonal
    side-steps succeed. *)
Example standoff_jump : moves (Board.move_pawn 1 (4, 6) standoff).
Proof. eexists. by vm_compute. Qed.

Example walled_jump : Board.move_pawn 1 (4, 6) walled = Ok (false, walled).
Proof. by vm_compute. Qed.

Example walled_side_steps :
  moves (Board.move_pawn 1 (3, 5) walled) ∧ moves (Board.move_pawn 1 (5, 5) walled).
Proof. split; eexists; by vm_compute. Qed.

(** C6.  On a well-formed board, for an in-bounds unoccupied target one step
    away from the player's cell along one axis, [move_pawn] succeeds iff the
    link of the player's cell toward the target is open; otherwise it returns
    [False] and leaves the board as it was. *)
Theorem regular_move_iff (b : Board.t) (player : Z) (target : Z * Z) :
  board_ok b → in_grid target → Tile._has_pawn (Board.tile b target) = 0 →
  let cur := position_of b player in
  let row_dir := target.2 - cur.2 in
  let col_dir := target.1 - cur.1 in
  (Z.abs row_dir = 1 ∧ col_dir = 0) ∨ (row_dir = 0 ∧ Z.abs col_dir = 1) →
  (moves (Board.move_pawn player target b) ↔ regular_legal b cur target)
  ∧ (¬ regular_legal b cur target → Board.move_pawn player target b = Ok (false, b)).
Proof.
  intros Hok Hg Hfree cur row_dir col_dir Hshape.
  destruct (moves_free b player target Hok Hg Hfree) as [Hmoves Hfails].
  pose proof (legal_regular_shape b player target Hshape) as Hlegal.
  fold cur in Hlegal. rewrite Hmoves, Hlegal. split; [done|].
  intros H. apply Hfails. by rewrite Hlegal.
Qed.

Lemma regular_move_iff_witness :
  moves (Board.move_pawn 1 (4, 1) Board.__init__)
  ↔ regular_legal Board.__init__ (4, 0) (4, 1).
Proof.
  apply (regular_move_iff Board.__init__ 1 (4, 1)).
  - apply board_ok_init.
  - by vm_compute.
  - by vm_compute.
  - vm_compute. by left.
Defined.

(** C4.  On a well-formed board, for an in-bounds unoccupied target two steps
    away from the player's cell along one axis, [move_pawn] succeeds iff the
    link of the player's cell toward the target is open, the cell behind it
    holds a pawn and the link of that cell toward the target is open;
    otherwise it returns [False] and leaves the board as it was. *)
Theorem jump_move_iff (b : Board.t) (player : Z) (target : Z * Z) :
  board_ok b → in_grid target → Tile._has_pawn (Board.tile b target) = 0 →
  let cur := position_of b player in
  let row_dir := target.2 - cur.2 in
  let col_dir := target.1 - cur.1 in
  (Z.abs row_dir = 2 ∧ col_dir = 0) ∨ (row_dir = 0 ∧ Z.abs col_dir = 2) →
  (moves (Board.move_pawn player target b) ↔ jump_legal b cur target)
  ∧ (¬ jump_legal b cur target → Board.move_pawn player target b = Ok (false, b)).
Proof.
  intros Hok Hg Hfree cur row_dir col_dir Hshape.
  destruct (moves_free b player target Hok Hg Hfree) as [Hmoves Hfails].
  pose proof (legal_jump_shape b player target Hok Hshape) as Hlegal.
  fold cur in Hlegal. rewrite Hmoves, Hlegal. split; [done|].
  intros H. apply Hfails. by rewrite Hlegal.
Qed.

Lemma jump_move_iff_witness :
  moves (Board.move_pawn 1 (4, 6) standoff) ↔ jump_legal standoff (4, 4) (4, 6).
Proof.
  apply (jump_move_iff standoff 1 (4, 6)).
  - apply (play_board_ok standoff_calls). by vm_compute.
  - by vm_compute.
  - by vm_compute.
  - vm_compute. by left.
Defined.

(** C5.  On a well-formed board with consistent pawn markers, for a player
    1 or 2 and an in-bounds unoccupied target one step away diagonally,
    [move_pawn] succeeds iff either (a) the cell linked along the column
    displacement holds the opponent's pawn, its link continuing in the column
    direction is closed and its link in the row direction is open, or (b) the
    cell linked along the column displacement is absent or holds no pawn, the
    cell linked along the row displacement holds the opponent's pawn, its link
    continuing in the row direction is closed and its link in the column
    direction is open; otherwise it returns [False] and leaves the board as
    it was. *)
Theorem diagonal_move_iff (b : Board.t) (player : Z) (target : Z * Z) :
  board_ok b → pawns_ok b → player = 1 ∨ player = 2 →
  in_grid target → Tile._has_pawn (Board.tile b target) = 0 →
  let cur := position_of b player in
  let row_dir := target.2 - cur.2 in
  let col_dir := target.1 - cur.1 in
  Z.abs row_dir = 1 → Z.abs col_dir = 1 →
  (moves (Board.move_pawn player target b)
   ↔ side_step_legal b player cur (column_way col_dir) (row_way row_dir))
  ∧ (¬ side_step_legal b player cur (column_way col_dir) (row_way row_dir) →
     Board.move_pawn player target b = Ok (false, b)).
Proof.
  intros Hok Hp Hpl Hg Hfree cur row_dir col_dir Hr Hc.
  destruct (moves_free b player target Hok Hg Hfree) as [Hmoves Hfails].
  pose proof (legal_diagonal_shape b player target Hok Hp Hpl Hr Hc) as Hlegal.
  fold cur row_dir col_dir in Hlegal. rewrite Hmoves, Hlegal. split; [done|].
  intros H. apply Hfails. by rewrite Hlegal.
Qed.

Lemma diagonal_move_iff_witness :
  moves (Board.move_pawn 1 (3, 5) walled) ↔ side_step_legal walled 1 (4, 4) West South.
Proof.
  apply (diagonal_move_iff walled 1 (3, 5)).
  - apply (play_board_ok walled_calls). by vm_compute.
  - apply (play_pawns_ok walled_calls); [|by vm_compute].
    apply (bool_decide_unpack _). by vm_compute.
  - by left.
  - by vm_compute.
  - by vm_compute.
  - by vm_compute.
  - by vm_compute.
Defined.

Lemma legal_moves_away b player target :
  legal b player target = true → target ≠ position_of b player.
Proof.
  intros Hlegal ->. unfold legal in Hlegal.
  unfold Board._can_move_regularly, Board._can_jump_pawn, Board._can_move_diagonally in Hlegal.
  rewrite !Z.sub_diag in Hlegal. by vm_compute in Hlegal.
Qed.

(** C3.  On a well-formed board, a [place_fence] call that does not return
    [True] leaves the board equal to the board before the call, and a
    [move_pawn] call either returns [False] and leaves the board equal, or
    returns [True] with the vacated cell cleared, the target cell marked, the
    stored position updated, and every other tile, every link and the other
    stored position unchanged. *)
Theorem no_partial_mutation (b : Board.t) :
  board_ok b →
  (∀ direction position r b',
     Board.place_fence direction position b = Ok (r, b') → r ≠ PyBool true → b' = b)
  ∧ (∀ player target r b',
       Board.move_pawn player target b = Ok (r, b') →
       let cur := position_of b player in
       (r = false ∧ b' = b)
       ∨ (r = true
          ∧ Tile._has_pawn (Board.tile b' cur) = 0
          ∧ Tile._has_pawn (Board.tile b' target) = player
          ∧ position_of b' player = target
          ∧ (∀ x, x ≠ cur → x ≠ target → Board.tile b' x = Board.tile b x)
          ∧ (∀ x d, link (Board.tile b' x) d = link (Board.tile b x) d)
          ∧ (player = 1 → Board._player_2 b' = Board._player_2 b)
          ∧ (player ≠ 1 → Board._player_1 b' = Board._player_1 b))).
Proof.
  intros Hok. split.
  - intros direction position r b' Hcall Hr.
    destruct (place_fence_cases b direction position Hok)
      as [H|(d & _ & _ & _ & [[_ H]|[_ H]])]; rewrite H in Hcall; by simplify_eq.
  - intros player target r b' Hcall cur.
    destruct (move_pawn_cases b player target Hok) as [(H & Hg & Hfree & Hlegal)|H];
      rewrite H in Hcall; injection Hcall as <- <-; [right|by left].
    apply legal_moves_away in Hlegal. fold cur in Hlegal.
    split_and!; try done.
    + rewrite tile_moved by done. fold cur. by rewrite decide_False, decide_True.
    + rewrite tile_moved by done. by rewrite decide_True.
    + unfold position_of at 1. rewrite player_1_moved, player_2_moved. by case_bool_decide.
    + intros x Hx1 Hx2. rewrite tile_moved by done. fold cur. by rewrite !decide_False.
    + intros x d. rewrite tile_moved by done. fold cur.
      repeat case_decide; subst; by rewrite ?set_has_pawn_link.
    + intros ->. by rewrite player_2_moved.
    + intros Hne. rewrite player_1_moved. by rewrite bool_decide_eq_false_2.
Qed.

Lemma no_partial_mutation_witness :
  (∀ direction position r b',
     Board.place_fence direction position standoff = Ok (r, b') →
     r ≠ PyBool true → b' = standoff)
  ∧ (∀ player target r b',
       Board.move_pawn player target standoff = Ok (r, b') →
       let cur := position_of standoff player in
       (r = false ∧ b' = standoff)
       ∨ (r = true
          ∧ Tile._has_pawn (Board.tile b' cur) = 0
          ∧ Tile._has_pawn (Board.tile b' target) = player
          ∧ position_of b' player = target
          ∧ (∀ x, x ≠ cur → x ≠ target → Board.tile b' x = Board.tile standoff x)
          ∧ (∀ x d, link (Board.tile b' x) d = link (Board.tile standoff x) d)
          ∧ (player = 1 → Board._player_2 b' = Board._player_2 standoff)
          ∧ (player ≠ 1 → Board._player_1 b' = Board._player_1 standoff))).
Proof.
  apply (no_partial_mutation standoff).
  apply (play_board_ok standoff_calls). by vm_compute.
Defined.

(** C7.  On the board left by any sequence of [move_pawn] and [place_fence]
    calls on a new board, for every cell [x] of the grid and every direction
    [d]: when the neighbour of [x] toward [d] is on the grid, the link of [x]
    toward [d] exists iff the link of that neighbour toward [x] exists; and a
    link of [x] toward [d] that exists points to the grid neighbour of [x]
    toward [d]. *)
Theorem links_symmetric (cs : list call) (b : Board.t) :
  play cs = Ok b →
  ∀ x d, in_grid x →
    (in_grid (toward d x) →
     is_Some (link (Board.tile b x) d)
     ↔ is_Some (link (Board.tile b (toward d x)) (opposite d)))
    ∧ (∀ y, link (Board.tile b x) d = Some y → y = toward d x ∧ in_grid y).
Proof.
  intros Hplay x d Hx. apply play_board_ok in Hplay. split.
  - intros Hy. by apply link_symmetric.
  - intros y Hl. by apply (link_target b Hplay) in Hl as (? & ? & _).
Qed.

Lemma links_symmetric_witness :
  (in_grid (toward North (4, 6)) →
   is_Some (link (Board.tile walled (4, 6)) North)
   ↔ is_Some (link (Board.tile walled (toward North (4, 6))) (opposite North)))
  ∧ (∀ y, link (Board.tile walled (4, 6)) North = Some y
          → y = toward North (4, 6) ∧ in_grid y).
Proof.
  apply (links_symmetric walled_calls walled).
  - by vm_compute.
  - by vm_compute.
Defined.

(** C8.  On the board left by any sequence of calls on a new board in which
    every [move_pawn] is called for player 1 or 2: the stored position of
    player 1 is a cell of the grid and it is the one cell whose marker is 1,
    the stored position of player 2 is a cell of the grid and it is the one
    cell whose marker is 2, and no cell has both markers. *)
Theorem pawns_consistent (cs : list call) (b : Board.t) :
  Forall proper_call cs → play cs = Ok b →
  (in_grid (Board._player_1 b)
   ∧ ∀ x, in_grid x → Tile._has_pawn (Board.tile b x) = 1 ↔ x = Board._player_1 b)
  ∧ (in_grid (Board._player_2 b)
     ∧ ∀ x, in_grid x → Tile._has_pawn (Board.tile b x) = 2 ↔ x = Board._player_2 b)
  ∧ (∀ x, ¬ (Tile._has_pawn (Board.tile b x) = 1 ∧ Tile._has_pawn (Board.tile b x) = 2)).
Proof.
  intros Hcs Hplay. pose proof (play_board_ok cs b Hplay) as Hok.
  pose proof (play_pawns_ok cs b Hcs Hplay) as [Hapart Hmark].
  split_and!; try apply Hok.
  - intros x Hx. rewrite Hmark by done. unfold marker. repeat case_decide; naive_solver.
  - intros x Hx. rewrite Hmark by done. unfold marker. repeat case_decide; naive_solver.
  - intros x [H1 H2]. rewrite H1 in H2. done.
Qed.

Lemma pawns_consistent_witness :
  (in_grid (Board._player_1 walled)
   ∧ ∀ x, in_grid x
          → Tile._has_pawn (Board.tile walled x) = 1 ↔ x = Board._player_1 walled)
  ∧ (in_grid (Board._player_2 walled)
     ∧ ∀ x, in_grid x
            → Tile._has_pawn (Board.tile walled x) = 2 ↔ x = Board._player_2 walled)
  ∧ (∀ x, ¬ (Tile._has_pawn (Board.tile walled x) = 1
             ∧ Tile._has_pawn (Board.tile walled x) = 2)).
Proof.
  apply (pawns_consistent walled_calls walled).
  - apply (bool_decide_unpack _). by vm_compute.
  - by vm_compute.
Defined.

(** C9.  Every sequence of calls on a new board, with any integer player,
    any integer coordinates and any direction string, runs without an
    exception, without reading the grid outside its 9 x 9 slots and within
    the allotment of the search loop; on the board it leaves, a further
    [move_pawn] returns a boolean and a further [place_fence] returns [True],
    [False] or the fair-play message; a [move_pawn] to a target out of bounds
    or occupied returns [False] and leaves the board as it was. *)
Theorem calls_total (cs : list call) :
  ∃ b, play cs = Ok b
  ∧ (∀ player target,
       ∃ r b', Board.move_pawn player target b = Ok (r, b')
               ∧ (¬ in_grid target ∨ Tile._has_pawn (Board.tile b target) ≠ 0
                  → r = false ∧ b' = b))
  ∧ (∀ direction position,
       ∃ r b', Board.place_fence direction position b = Ok (r, b')
               ∧ (r = PyBool true ∨ r = PyBool false ∨ r = PyStr fair_play_message)).
Proof.
  destruct (play_from_total cs _ board_ok_init) as (b & Hplay & Hok).
  exists b. split; [done|]. split.
  - intros player target.
    destruct (decide (in_grid target)) as [Hg|Hg].
    + destruct (decide (Tile._has_pawn (Board.tile b target) = 0)) as [Hfree|Hpawn].
      * rewrite move_pawn_free by done. destruct (legal b player target).
        -- do 2 eexists. split; [done|]. by intros [?|?].
        -- do 2 eexists. split; [done|]. by intros [?|?].
      * rewrite move_pawn_occupied by done. by exists false, b.
    + rewrite move_pawn_outside by done. by exists false, b.
  - intros direction position.
    destruct (place_fence_cases b direction position Hok)
      as [-> |(d & _ & _ & _ & [[_ ->]|[_ ->]])]; do 2 eexists; (split; [done|]); auto.
Qed.

(** C10.  On a well-formed board, when [place_fence] returns [True] the
    direction is "v" and the side is west, or the direction is "h" and the
    side is north; the link of the target cell on that side and the link back
    of its neighbour on that side were open and are closed; every other link
    of every cell, every marker, every stored coordinate of a tile and both
    stored positions are unchanged. *)
Theorem placed_fence_frame (b b' : Board.t) (direction : string) (position : Z * Z) :
  board_ok b →
  Board.place_fence direction position b = Ok (PyBool true, b') →
  ∃ d, (direction = "v" ∧ d = West ∨ direction = "h" ∧ d = North)
       ∧ in_grid position
       ∧ link (Board.tile b position) d = Some (toward d position)
       ∧ link (Board.tile b (toward d position)) (opposite d) = Some position
       ∧ link (Board.tile b' position) d = None
       ∧ link (Board.tile b' (toward d position)) (opposite d) = None
       ∧ (∀ x d', ¬ (x = position ∧ d' = d) →
                  ¬ (x = toward d position ∧ d' = opposite d) →
                  link (Board.tile b' x) d' = link (Board.tile b x) d')
       ∧ (∀ x, Tile._has_pawn (Board.tile b' x) = Tile._has_pawn (Board.tile b x))
       ∧ (∀ x, Tile._board_coord (Board.tile b' x) = Tile._board_coord (Board.tile b x))
       ∧ Board._player_1 b' = Board._player_1 b
       ∧ Board._player_2 b' = Board._player_2 b.
Proof.
  intros Hok Hcall.
  destruct (place_fence_cases b direction position Hok)
    as [H|(d & Hside & Hg & Hopen & [[_ H]|[_ H]])]; rewrite H in Hcall; simplify_eq.
  destruct (fenced_neighbour b d position Hok Hg Hopen) as (Hl & Hy & Hback).
  exists d. split_and!; try done.
  - unfold fence_side in Hside. repeat case_decide; naive_solver.
  - rewrite link_fenced by done. by rewrite decide_True by auto.
  - rewrite link_fenced by done. by rewrite decide_True by auto.
  - intros x d' H1 H2. rewrite link_fenced by done. rewrite decide_False; [done|].
    by intros [?|?].
  - intros x. by apply has_pawn_fenced.
  - intros x. by apply board_coord_fenced.
  - by apply player_1_fenced.
  - by apply player_2_fenced.
Qed.

Lemma placed_fence_frame_witness :
  ∃ d, ("h" = "v" ∧ d = West ∨ "h" = "h" ∧ d = North)
       ∧ in_grid (4, 6)
       ∧ link (Board.tile standoff (4, 6)) d = Some (toward d (4, 6))
       ∧ link (Board.tile standoff (toward d (4, 6))) (opposite d) = Some (4, 6)
       ∧ link (Board.tile walled (4, 6)) d = None
       ∧ link (Board.tile walled (toward d (4, 6))) (opposite d) = None
       ∧ (∀ x d', ¬ (x = (4, 6) ∧ d' = d) →
                  ¬ (x = toward d (4, 6) ∧ d' = opposite d) →
                  link (Board.tile walled x) d' = link (Board.tile standoff x) d')
       ∧ (∀ x, Tile._has_pawn (Board.tile walled x)
               = Tile._has_pawn (Board.tile standoff x))
       ∧ (∀ x, Tile._board_coord (Board.tile walled x)
               = Tile._board_coord (Board.tile standoff x))
       ∧ Board._player_1 walled = Board._player_1 standoff
       ∧ Board._player_2 walled = Board._player_2 standoff.
Proof.
  apply (placed_fence_frame standoff walled "h" (4, 6)).
  - apply (play_board_ok standoff_calls). by vm_compute.
  - by vm_compute.
Defined.

(** ** The fair-play check between calls *)

Lemma has_open_link_iff b x :
  has_open_link b x ↔ ∃ d, is_Some (link (Board.tile b x) d).
Proof.
  unfold has_open_link. split.
  - destruct (Tile.get_valid_directions (Board.tile b x)) as [|y l] eqn:E; [done|].
    intros _. assert (Hy : y ∈ Tile.get_valid_directions (Board.tile b x)).
    { rewrite E. by left. }
    apply valid_directions_link in Hy as [d Hd]. exists d. by eexists.
  - intros (d & y & Hy) E.
    assert (Hin : y ∈ Tile.get_valid_directions (Board.tile b x)).
    { apply valid_directions_link. eauto. }
    rewrite E in Hin. by apply elem_of_nil in Hin.
Qed.

(** A legal move ends on a cell with an open link: the one it came through. *)
Lemma legal_target_linked b player target :
  board_ok b → legal b player target = true → has_open_link b target.
Proof.
  intros Hok Hlegal. apply has_open_link_iff.
  assert (Hcur : in_grid (position_of b player)) by by apply position_in_grid.
  pose proof Hlegal as H. unfold legal in H.
  apply orb_true_iff in H as [H|Hdiag]; [apply orb_true_iff in H as [Hreg|Hjump]|].
  - unfold Board._can_move_regularly in Hreg. case_bool_decide as G; [|done].
    apply legal_regular_shape in Hlegal as (d & Hd & [y Hy]); [|lia].
    apply (link_target b Hok) in Hy as (-> & _ & Hback); [|done].
    exists (opposite d). rewrite <- Hd. by eexists.
  - unfold Board._can_jump_pawn in Hjump. case_bool_decide as G; [|done].
    apply legal_jump_shape in Hlegal as (d & Hd & [m Hm] & _ & [y Hy]); [|done|lia].
    apply (link_target b Hok) in Hm as (-> & Hm & _); [|done].
    apply (link_target b Hok) in Hy as (-> & _ & Hback); [|done].
    exists (opposite d). rewrite <- Hd. by eexists.
  - unfold Board._can_move_diagonally in Hdiag. case_bool_decide as G; [|done].
    destruct G as [Gr Gc].
    set (cur := position_of b player) in *.
    set (dr := row_way (target.2 - cur.2)). set (dc := column_way (target.1 - cur.1)).
    assert (Htarget : toward dr (toward dc cur) = target ∧ toward dc (toward dr cur) = target).
    { unfold dr, dc, row_way, column_way, toward. destruct cur as [c l], target as [c' l'].
      simpl in *. split; repeat case_bool_decide; simpl; f_equal; lia. }
    destruct Htarget as [Ht1 Ht2].
    apply legal_diagonal_pawn in Hlegal; [|done..]. fold cur dr dc in Hlegal.
    destruct Hlegal as [(x & Hx & _ & _ & [y Hy])|[_ (x & Hx & _ & _ & [y Hy])]].
    + apply (link_target b Hok) in Hx as (-> & Hx & _); [|done].
      apply (link_target b Hok) in Hy as (-> & _ & Hback); [|done].
      exists (opposite dr). rewrite <- Ht1. by eexists.
    + apply (link_target b Hok) in Hx as (-> & Hx & _); [|done].
      apply (link_target b Hok) in Hy as (-> & _ & Hback); [|done].
      exists (opposite dc). rewrite <- Ht2. by eexists.
Qed.

(** On a well-formed board the check returns [True] exactly when the
    player's cell has an open link and a route exists. *)
Lemma fair_play_iff b player :
  board_ok b →
  Board._fair_play player b = Ok true
  ↔ has_open_link b (position_of b player) ∧ has_route b player.
Proof.
  intros Hok. rewrite <- (route_via_link_iff b player Hok).
  destruct (fair_play_spec b player Hok) as (r & -> & Hiff).
  rewrite <- Hiff. split; [by intros [= ->]|by intros ->].
Qed.

(** Both stored positions keep an open link through every call. *)
Lemma exec_open_link c b b' :
  board_ok b →
  (∀ player, has_open_link b (position_of b player)) →
  exec c b = Ok b' →
  ∀ player, has_open_link b' (position_of b' player).
Proof.
  intros Hok Hopen. destruct c as [mover new_pos|direction position]; simpl.
  - destruct (move_pawn_cases b mover new_pos Hok) as [(-> & Hg & _ & Hlegal)| ->]; simpl;
      intros [= <-]; [|done].
    assert (Hlinks : ∀ x, has_open_link (moved mover new_pos b) x ↔ has_open_link b x).
    { intros x. rewrite !has_open_link_iff.
      assert (Hl : ∀ d, link (Board.tile (moved mover new_pos b) x) d
                        = link (Board.tile b x) d).
      { intros d. rewrite tile_moved by done.
        repeat case_decide; subst; by rewrite ?set_has_pawn_link. }
      by setoid_rewrite Hl. }
    intros player. apply Hlinks. apply legal_target_linked in Hlegal; [|done].
    specialize (Hopen 1) as Hopen1. specialize (Hopen 2) as Hopen2.
    unfold position_of in *. rewrite player_1_moved, player_2_moved.
    simpl in *. by repeat case_bool_decide.
  - destruct (place_fence_cases b direction position Hok)
      as [-> |(d & _ & Hg & Hlink & [[_ ->]|[Hfair ->]])]; simpl; intros [= <-]; try done.
    assert (Hok' : board_ok (fenced d position b)) by by apply board_ok_fenced.
    destruct (unfair_total _ Hok') as (r & Hr & Hiff). rewrite Hfair in Hr.
    injection Hr as <-. destruct Hiff as [Hiff _].
    destruct (Hiff eq_refl) as [H1 H2].
    apply route_via_link_iff in H1 as [H1 _]; [|done].
    apply route_via_link_iff in H2 as [H2 _]; [|done].
    intros player. unfold has_open_link, position_of in *. simpl in *.
    by case_bool_decide.
Qed.

Lemma play_from_open_link cs : ∀ b b',
  board_ok b →
  (∀ player, has_open_link b (position_of b player)) →
  play_from b cs = Ok b' →
  ∀ player, has_open_link b' (position_of b' player).
Proof.
  induction cs as [|c cs IH]; intros b b' Hok Hopen; simpl.
  - by intros [= <-].
  - destruct (exec_total c b Hok) as (b1 & Hb1 & Hok1). rewrite Hb1. simpl.
    apply IH; [done|]. by apply (exec_open_link c b).
Qed.

(** On the board a sequence of calls leaves, the check agrees with the
    routes: it disagrees only on boards [place_fence] builds for its own
    checks. *)
Lemma fair_play_between_calls cs b player :
  play cs = Ok b →
  ∃ r, Board._fair_play player b = Ok r ∧ (r = true ↔ has_route b player).
Proof.
  intros Hplay. pose proof (play_board_ok cs b Hplay) as Hok.
  apply fair_play_open; [done|].
  apply (play_from_open_link cs Board.__init__ b); [apply board_ok_init| |done].
  intros p. unfold has_open_link, position_of. by case_bool_decide; vm_compute.
Qed.

(** ** The fair-play check and a pawn in its goal row *)

Lemma board_ok_cornered : board_ok cornered.
Proof. apply (play_board_ok cornered_calls). by vm_compute. Qed.

Lemma board_ok_sealed : board_ok sealed.
Proof.
  rewrite sealed_fenced. apply board_ok_fenced.
  - apply board_ok_cornered.
  - by vm_compute.
  - vm_compute. by eexists.
Qed.

(** What [place_fence] does once the link to close is found open: it runs
    the two checks on the board with the link closed and keeps the closure
    iff both pass. *)
Lemma place_fence_checked b direction position d :
  board_ok b → fence_side direction = Some d → in_grid position →
  is_Some (link (Board.tile b position) d) →
  ∃ fair1 fair2,
    Board._fair_play 1 (fenced d position b) = Ok fair1
    ∧ Board._fair_play 2 (fenced d position b) = Ok fair2
    ∧ Board.place_fence direction position b
      = Ok (if fair1 && fair2 then (PyBool true, fenced d position b)
            else (PyStr fair_play_message, b)).
Proof.
  intros Hok Hside Hg [y Hy]. rewrite place_fence_eq, Hside, decide_True, Hy by done.
  assert (Hok' : board_ok (fenced d position b)).
  { apply board_ok_fenced; [done..|]. by rewrite Hy. }
  destruct (fair_play_spec _ 1 Hok') as (fair1 & H1 & _).
  destruct (fair_play_spec _ 2 Hok') as (fair2 & H2 & _).
  exists fair1, fair2. split_and!; [done..|].
  unfold Board.unfair. rewrite H1. simpl. destruct fair1; simpl; [|done].
  rewrite H2. simpl. by destruct fair2.
Qed.

(** C1.  The calls [cornered_calls] on a new board leave the board
    [cornered]; [place_fence("h", (3, 8))] hands the board [sealed] to its
    checks.  On [sealed] player 1 stands in its goal row, so the path of
    length zero is a route, and [_fair_play(1)] returns [False]: the search
    starts from the links of the player's cell and that cell has none. *)
Theorem fair_play_misses_start :
  play cornered_calls = Ok cornered
  ∧ sealed = fenced North (3, 8) cornered
  ∧ (position_of sealed 1).2 = goal_row 1
  ∧ has_route sealed 1
  ∧ Board._fair_play 1 sealed = Ok false.
Proof.
  split_and!.
  - by vm_compute.
  - reflexivity.
  - by vm_compute.
  - exists (3, 8). split; [|by vm_compute].
    replace (position_of sealed 1) with ((3, 8) : ref) by by vm_compute. done.
  - by vm_compute.
Qed.

(** C2.  On the board [cornered], left by the calls [cornered_calls] on a new
    board, both players keep a route to their goal row once the link north of
    (3, 8) is closed on both sides, and [place_fence("h", (3, 8))] returns the
    fair-play message and reopens the link. *)
Theorem place_fence_rejects_winner :
  play cornered_calls = Ok cornered
  ∧ is_Some (link (Board.tile cornered (3, 8)) North)
  ∧ has_route (fenced North (3, 8) cornered) 1
  ∧ has_route (fenced North (3, 8) cornered) 2
  ∧ Board.place_fence "h" (3, 8) cornered = Ok (PyStr fair_play_message, cornered).
Proof.
  rewrite <- sealed_fenced. split_and!.
  - by vm_compute.
  - vm_compute. by eexists.
  - exists (3, 8). split; [|by vm_compute].
    replace (position_of sealed 1) with ((3, 8) : ref) by by vm_compute. done.
  - destruct (fair_play_spec sealed 2 board_ok_sealed) as (r & Hr & Hiff).
    assert (Hrun : Board._fair_play 2 sealed = Ok true) by by vm_compute.
    rewrite Hrun in Hr. injection Hr as <-.
    destruct Hiff as [Hiff _]. specialize (Hiff eq_refl).
    by apply route_via_link_iff in Hiff as [_ ?]; [|apply board_ok_sealed].
  - by vm_compute.
Qed.


(** * Further properties of the board *)

(** ** The check away from the goal row *)

Lemma route_via_link_off_goal b player :
  (position_of b player).2 ≠ goal_row player →
  has_route b player ↔ has_route_via_link b player.
Proof.
  intros Hrow. unfold has_route, has_route_via_link. split.
  - intros (y & Hpath & Hy). apply rtc_inv in Hpath as [<-|(s & Hs & Hpath)]; [done|].
    by exists s, y.
  - intros (s & y & Hs & Hpath & Hy). exists y. split; [|done]. by eapply rtc_l.
Qed.

(** X1.  On a well-formed board on which the player's pawn is not in its
    goal row, [_fair_play] returns [True] iff a path of open links leads from
    the pawn to a cell of the goal row, and [False] iff there is none. *)
Theorem fair_play_off_goal (b : Board.t) (player : Z) :
  board_ok b → (position_of b player).2 ≠ goal_row player →
  (Board._fair_play player b = Ok true ↔ has_route b player)
  ∧ (Board._fair_play player b = Ok false ↔ ¬ has_route b player).
Proof.
  intros Hok Hrow. rewrite (route_via_link_off_goal b player Hrow).
  destruct (fair_play_spec b player Hok) as (r & -> & Hiff). rewrite <- Hiff.
  destruct r; split; split; try done; by intros [=].
Qed.

Lemma fair_play_off_goal_witness :
  (Board._fair_play 1 walled = Ok true ↔ has_route walled 1)
  ∧ (Board._fair_play 1 walled = Ok false ↔ ¬ has_route walled 1).
Proof.
  apply (fair_play_off_goal walled 1).
  - apply (play_board_ok walled_calls). by vm_compute.
  - by vm_compute.
Defined.

(** ** Moves follow the links *)

Lemma legal_path b player target :
  board_ok b → legal b player target = true →
  let cur := position_of b player in
  linked b cur target
  ∨ ∃ m, linked b cur m ∧ Tile._has_pawn (Board.tile b m) ≠ 0 ∧ linked b m target.
Proof.
  intros Hok Hlegal cur.
  assert (Hcur : in_grid cur) by by apply position_in_grid.
  pose proof Hlegal as H. unfold legal in H. fold cur in H.
  apply orb_true_iff in H as [H|Hdiag]; [apply orb_true_iff in H as [Hreg|Hjump]|].
  - unfold Board._can_move_regularly in Hreg. case_bool_decide as G; [|done].
    apply legal_regular_shape in Hlegal as (d & Hd & [y Hy]); [|fold cur; lia].
    fold cur in Hd, Hy. left. apply valid_directions_link. exists d.
    pose proof Hy as Hy'. apply (link_target b Hok) in Hy' as (-> & _ & _); [|done].
    by rewrite <- Hd.
  - unfold Board._can_jump_pawn in Hjump. case_bool_decide as G; [|done].
    apply legal_jump_shape in Hlegal as (d & Hd & [m Hm] & Hpawn & [y Hy]);
      [|done|fold cur; lia].
    fold cur in Hd, Hm, Hpawn, Hy. right. exists (toward d cur).
    pose proof Hm as Hm'. apply (link_target b Hok) in Hm' as (-> & Hg & _); [|done].
    pose proof Hy as Hy'. apply (link_target b Hok) in Hy' as (-> & _ & _); [|done].
    split_and!; [|done|]; apply valid_directions_link; exists d; by rewrite <- ?Hd.
  - unfold Board._can_move_diagonally in Hdiag. case_bool_decide as G; [|done].
    destruct G as [Gr Gc].
    set (dr := row_way (target.2 - cur.2)). set (dc := column_way (target.1 - cur.1)).
    assert (Htarget : toward dr (toward dc cur) = target ∧ toward dc (toward dr cur) = target).
    { unfold dr, dc, row_way, column_way, toward. destruct cur as [c l], target as [c' l'].
      simpl in *. split; repeat case_bool_decide; simpl; f_equal; lia. }
    destruct Htarget as [Ht1 Ht2].
    apply legal_diagonal_pawn in Hlegal; [|done..]. fold cur dr dc in Hlegal. right.
    destruct Hlegal as [(x & Hx & Hpawn & _ & [y Hy])|[_ (x & Hx & Hpawn & _ & [y Hy])]].
    + exists x. pose proof Hx as Hx'.
      apply (link_target b Hok) in Hx' as (-> & Hg & _); [|done].
      pose proof Hy as Hy'. apply (link_target b Hok) in Hy' as (-> & _ & _); [|done].
      split_and!; [|done|]; apply valid_directions_link; [by exists dc|exists dr].
      by rewrite <- Ht1.
    + exists x. pose proof Hx as Hx'.
      apply (link_target b Hok) in Hx' as (-> & Hg & _); [|done].
      pose proof Hy as Hy'. apply (link_target b Hok) in Hy' as (-> & _ & _); [|done].
      split_and!; [|done|]; apply valid_directions_link; [by exists dr|exists dc].
      by rewrite <- Ht2.
Qed.

(** X2.  On a well-formed board a successful [move_pawn] takes the pawn along
    open links only: to a cell behind an open link of its cell, or through a
    cell behind an open link that holds a pawn to a cell behind an open link
    of that cell.  No move crosses a fence and only a pawn is passed over. *)
Theorem move_follows_links (b b' : Board.t) (player : Z) (target : Z * Z) :
  board_ok b →
  Board.move_pawn player target b = Ok (true, b') →
  let cur := position_of b player in
  linked b cur target
  ∨ ∃ m, linked b cur m ∧ Tile._has_pawn (Board.tile b m) ≠ 0 ∧ linked b m target.
Proof.
  intros Hok Hcall.
  destruct (move_pawn_cases b player target Hok) as [(_ & _ & _ & Hlegal)|H].
  - by apply legal_path.
  - rewrite H in Hcall. by injection Hcall.
Qed.

Lemma move_follows_links_witness :
  linked walled (4, 4) (3, 5)
  ∨ ∃ m, linked walled (4, 4) m ∧ Tile._has_pawn (Board.tile walled m) ≠ 0
         ∧ linked walled m (3, 5).
Proof.
  eapply (move_follows_links walled _ 1 (3, 5)).
  - apply (play_board_ok walled_calls). by vm_compute.
  - by vm_compute.
Defined.

(** ** Fences stay *)

Lemma link_moved b player target x d :
  board_ok b → in_grid target →
  link (Board.tile (moved player target b) x) d = link (Board.tile b x) d.
Proof.
  intros Hok Hg. rewrite tile_moved by done.
  repeat case_decide; subst; by rewrite ?set_has_pawn_link.
Qed.

Lemma exec_keeps_fences c b b' :
  board_ok b → exec c b = Ok b' →
  ∀ x d, link (Board.tile b x) d = None → link (Board.tile b' x) d = None.
Proof.
  intros Hok. destruct c as [player new_pos|direction position]; simpl.
  - destruct (move_pawn_cases b player new_pos Hok) as [(-> & Hg & _)| ->]; simpl;
      intros [= <-] x d Hl; [|done]. by rewrite link_moved.
  - destruct (place_fence_cases b direction position Hok)
      as [-> |(d0 & _ & Hg & Hopen & [[_ ->]|[_ ->]])]; simpl; intros [= <-] x d Hl;
      try done.
    rewrite link_fenced by done. by case_decide.
Qed.

(** X3.  A fence is permanent: on a well-formed board, a link that is closed
    stays closed through every sequence of [move_pawn] and [place_fence]
    calls, whatever their arguments and results. *)
Theorem fences_permanent (cs : list call) (b b' : Board.t) :
  board_ok b → play_from b cs = Ok b' →
  ∀ x d, link (Board.tile b x) d = None → link (Board.tile b' x) d = None.
Proof.
  revert b. induction cs as [|c cs IH]; intros b Hok; simpl.
  - by intros [= <-].
  - destruct (exec_total c b Hok) as (b1 & Hb1 & Hok1). rewrite Hb1. simpl.
    intros Hplay x d Hl. apply (IH b1 Hok1 Hplay).
    by apply (exec_keeps_fences c b b1).
Qed.

Lemma fences_permanent_witness :
  link (Board.tile (moved 1 (3, 5) walled) (4, 6)) North = None.
Proof.
  apply (fences_permanent [MovePawn 1 (3, 5)] walled (moved 1 (3, 5) walled)).
  - apply (play_board_ok walled_calls). by vm_compute.
  - by vm_compute.
  - by vm_compute.
Defined.

(** X4.  On a well-formed board, once [place_fence] has returned [True] the
    same call again returns [False] and leaves the board as it is: a fence is
    never placed twice on the same link. *)
Theorem fence_not_placed_twice (b b' : Board.t) (direction : string) (position : Z * Z) :
  board_ok b →
  Board.place_fence direction position b = Ok (PyBool true, b') →
  Board.place_fence direction position b' = Ok (PyBool false, b').
Proof.
  intros Hok Hcall.
  destruct (place_fence_cases b direction position Hok)
    as [H|(d & Hside & Hg & Hopen & [[_ H]|[_ H]])]; rewrite H in Hcall; simplify_eq.
  rewrite place_fence_eq by by apply board_ok_fenced.
  rewrite Hside, decide_True by done.
  rewrite link_fenced by done. by rewrite decide_True by auto.
Qed.

Lemma fence_not_placed_twice_witness :
  Board.place_fence "h" (4, 6) walled = Ok (PyBool false, walled).
Proof.
  apply (fence_not_placed_twice standoff walled "h" (4, 6)).
  - apply (play_board_ok standoff_calls). by vm_compute.
  - by vm_compute.
Defined.

(** ** Routes are kept *)

Lemma linked_symmetric b x y : board_ok b → in_grid x → linked b x y → linked b y x.
Proof.
  intros Hok Hx [d Hd]%valid_directions_link.
  apply (link_target b Hok) in Hd as (_ & _ & Hback); [|done].
  apply valid_directions_link. eauto.
Qed.

Lemma route_back b x y : board_ok b → in_grid x → rtc (linked b) x y → rtc (linked b) y x.
Proof.
  intros Hok Hx Hpath. induction Hpath as [|x y z Hxy _ IH]; [done|].
  eapply rtc_r; [apply IH; by eapply linked_in_grid|].
  by apply linked_symmetric.
Qed.

Lemma linked_moved b player target x y :
  board_ok b → in_grid target → linked (moved player target b) x y ↔ linked b x y.
Proof.
  intros Hok Hg. unfold linked. rewrite !valid_directions_link.
  by setoid_rewrite (link_moved b player target x).
Qed.

Lemma route_moved b player target x y :
  board_ok b → in_grid target →
  rtc (linked b) x y → rtc (linked (moved player target b)) x y.
Proof.
  intros Hok Hg Hpath. induction Hpath as [|x y z Hxy _ IH]; [done|].
  eapply rtc_l; [|done]. by apply linked_moved.
Qed.

Lemma has_route_moved b mover target player :
  board_ok b → in_grid target → legal b mover target = true →
  (∀ p, has_route b p) → has_route (moved mover target b) player.
Proof.
  intros Hok Hg Hlegal Hroutes.
  assert (Hcur : in_grid (position_of b mover)) by by apply position_in_grid.
  assert (Hback : rtc (linked b) target (position_of b mover)).
  { apply route_back; [done..|].
    destruct (legal_path b mover target Hok Hlegal) as [H|(m & H1 & _ & H2)].
    - by apply rtc_once.
    - by apply rtc_l with m, rtc_once. }
  unfold has_route.
  destruct (decide (position_of (moved mover target b) player = position_of b player))
    as [->|Hne].
  - destruct (Hroutes player) as (y & Hpath & Hy). exists y. split; [|done].
    by apply route_moved.
  - assert (position_of (moved mover target b) player = target
            ∧ goal_row player = goal_row mover) as [-> ->].
    { unfold position_of, goal_row in *. rewrite player_1_moved, player_2_moved in *.
      by repeat case_bool_decide. }
    destruct (Hroutes mover) as (y & Hpath & Hy). exists y. split; [|done].
    apply route_moved; [done..|]. by etrans.
Qed.

Lemma has_route_any b p : has_route b 1 → has_route b 2 → has_route b p.
Proof.
  intros H1 H2. destruct (decide (p = 1)) as [->|Hp]; [done|].
  unfold has_route, position_of, goal_row in *.
  by rewrite !(bool_decide_eq_false_2 (p = 1)) by done.
Qed.

Lemma exec_routes c b b' :
  board_ok b → (∀ p, has_route b p) → exec c b = Ok b' → ∀ p, has_route b' p.
Proof.
  intros Hok Hroutes. destruct c as [mover new_pos|direction position]; simpl.
  - destruct (move_pawn_cases b mover new_pos Hok) as [(-> & Hg & _ & Hlegal)| ->]; simpl;
      intros [= <-] p; [|done]. by apply has_route_moved.
  - destruct (place_fence_cases b direction position Hok)
      as [-> |(d & _ & Hg & Hlink & [[_ ->]|[Hfair ->]])]; simpl; intros [= <-] p;
      try done.
    assert (Hok' : board_ok (fenced d position b)) by by apply board_ok_fenced.
    destruct (unfair_total _ Hok') as (r & Hr & Hiff). rewrite Hfair in Hr.
    injection Hr as <-. destruct Hiff as [Hiff _].
    destruct (Hiff eq_refl) as [H1 H2].
    apply route_via_link_iff in H1 as [_ H1]; [|done].
    apply route_via_link_iff in H2 as [_ H2]; [|done].
    by apply has_route_any.
Qed.

Lemma routes_init p : has_route Board.__init__ p.
Proof.
  assert (H1 : has_route Board.__init__ 1).
  { apply (fair_play_iff _ 1 board_ok_init). by vm_compute. }
  assert (H2 : has_route Board.__init__ 2).
  { apply (fair_play_iff _ 2 board_ok_init). by vm_compute. }
  by apply has_route_any.
Qed.

Lemma play_from_routes cs : ∀ b b',
  board_ok b → (∀ p, has_route b p) → play_from b cs = Ok b' → ∀ p, has_route b' p.
Proof.
  induction cs as [|c cs IH]; intros b b' Hok Hroutes; simpl.
  - by intros [= <-].
  - destruct (exec_total c b Hok) as (b1 & Hb1 & Hok1). rewrite Hb1. simpl.
    apply IH; [done|]. by apply (exec_routes c b).
Qed.

(** X5.  The fair-play rule is kept: on the board left by any sequence of
    [move_pawn] and [place_fence] calls on a new board, whatever their
    arguments, each player has a path of open links from its pawn to a cell of
    its goal row. *)
Theorem routes_kept (cs : list call) (b : Board.t) :
  play cs = Ok b → has_route b 1 ∧ has_route b 2.
Proof.
  intros Hplay.
  split; apply (play_from_routes cs Board.__init__ b);
    auto using board_ok_init, routes_init.
Qed.

Lemma routes_kept_witness : has_route walled 1 ∧ has_route walled 2.
Proof. apply (routes_kept walled_calls walled). by vm_compute. Defined.

(** ** A straight move is undone by the move back *)

(** Two well-formed boards with the same stored positions and the same tiles
    are equal. *)
Lemma board_ext b b' :
  board_ok b → board_ok b' →
  Board._player_1 b = Board._player_1 b' →
  Board._player_2 b = Board._player_2 b' →
  (∀ x, in_grid x → Board.tile b x = Board.tile b' x) →
  b = b'.
Proof.
  intros Hok Hok' H1 H2 Htiles.
  assert (Hcell : ∀ x, in_grid x →
            Board.cell (Board._board b) x = Board.cell (Board._board b') x).
  { intros x Hx. specialize (Htiles x Hx). unfold Board.tile in Htiles.
    destruct (cell_in_grid b Hok x Hx) as [t Ht].
    destruct (cell_in_grid b' Hok' x Hx) as [t' Ht'].
    rewrite Ht, Ht' in *. simpl in Htiles. by rewrite Htiles. }
  destruct b as [p1 p2 g], b' as [p1' p2' g']. simpl in *. subst. f_equal.
  pose proof (ok_rows _ Hok) as Hr. pose proof (ok_rows _ Hok') as Hr'.
  pose proof (ok_cols _ Hok) as Hc. pose proof (ok_cols _ Hok') as Hc'.
  simpl in *. rewrite Forall_forall in Hc, Hc'.
  apply list_eq. intros i. destruct (decide (i < 9)%nat) as [Hi|Hi]; cycle 1.
  { rewrite !lookup_ge_None_2; [done|lia..]. }
  destruct (lookup_lt_is_Some_2 g i) as [line Hline]; [lia|].
  destruct (lookup_lt_is_Some_2 g' i) as [line' Hline']; [lia|].
  rewrite Hline, Hline'. f_equal.
  assert (Hlen : length line = 9%nat) by (apply Hc; by eapply list_elem_of_lookup_2).
  assert (Hlen' : length line' = 9%nat) by (apply Hc'; by eapply list_elem_of_lookup_2).
  apply list_eq. intros j. destruct (decide (j < 9)%nat) as [Hj|Hj]; cycle 1.
  { rewrite !lookup_ge_None_2; [done|lia..]. }
  specialize (Hcell (Z.of_nat j, Z.of_nat i)). unfold Board.cell in Hcell. simpl in Hcell.
  rewrite bool_decide_eq_true_2, !Nat2Z.id, Hline, Hline' in Hcell by lia.
  apply Hcell. unfold in_grid. simpl. lia.
Qed.

Lemma set_has_pawn_same pawn t : Tile._has_pawn t = pawn → Tile.set_has_pawn pawn t = t.
Proof. destruct t. simpl. by intros ->. Qed.

Lemma set_has_pawn_twice p q t :
  Tile.set_has_pawn p (Tile.set_has_pawn q t) = Tile.set_has_pawn p t.
Proof. done. Qed.

Lemma has_pawn_position b player :
  board_ok b → pawns_ok b → player = 1 ∨ player = 2 →
  Tile._has_pawn (Board.tile b (position_of b player)) = player.
Proof.
  intros Hok Hp Hpl. rewrite (pawns_marker _ Hp) by by apply position_in_grid.
  pose proof (pawns_apart _ Hp). unfold marker, position_of.
  destruct Hpl as [-> | ->]; simpl; repeat case_decide; done.
Qed.

Lemma position_of_moved b player target :
  position_of (moved player target b) player = target.
Proof. unfold position_of. rewrite player_1_moved, player_2_moved. by case_bool_decide. Qed.

(** X6.  On a well-formed board with consistent markers, after a successful
    move of player 1 or 2 by one or two steps along one axis (a regular move
    or a jump), the move back to the cell the pawn came from succeeds and
    gives back the board as it was before the two moves. *)
Theorem straight_move_undone (b b1 : Board.t) (player : Z) (target : Z * Z) :
  board_ok b → pawns_ok b → player = 1 ∨ player = 2 →
  straight (position_of b player) target →
  Board.move_pawn player target b = Ok (true, b1) →
  Board.move_pawn player (position_of b player) b1 = Ok (true, b).
Proof.
  intros Hok Hp Hpl Hstraight Hcall. set (cur := position_of b player) in *.
  assert (Hcur : in_grid cur) by by apply position_in_grid.
  destruct (move_pawn_cases b player target Hok) as [(H & Hg & Hfree & Hlegal)|H];
    rewrite H in Hcall; simplify_eq.
  pose proof (legal_moves_away b player target Hlegal) as Hne. fold cur in Hne.
  pose proof (board_ok_moved b player target Hok Hg) as Hok1.
  pose proof (position_of_moved b player target) as Hpos1.
  assert (Hmarker : Tile._has_pawn (Board.tile b cur) = player)
    by by apply has_pawn_position.
  assert (Hlinks : ∀ x d, link (Board.tile (moved player target b) x) d
                          = link (Board.tile b x) d).
  { intros x d. by apply link_moved. }
  assert (Hfree1 : Tile._has_pawn (Board.tile (moved player target b) cur) = 0).
  { rewrite tile_moved by done. fold cur. by rewrite decide_False, decide_True. }
  assert (Hlegal1 : legal (moved player target b) player cur = true).
  { destruct Hstraight as [[Hc [Hr|Hr]]|[Hr [Hc|Hc]]].
    - apply (legal_regular_shape (moved player target b) player cur);
        [rewrite Hpos1; lia|].
      apply (legal_regular_shape b player target) in Hlegal as (d & Hd & [y Hy]);
        [|fold cur; lia].
      fold cur in Hd, Hy. rewrite Hpos1. exists (opposite d). subst target.
      split; [apply toward_opposite|]. rewrite Hlinks.
      apply (link_target b Hok) in Hy as (-> & _ & ->); [by eexists|done].
    - apply (legal_jump_shape (moved player target b) player cur Hok1);
        [rewrite Hpos1; lia|].
      apply (legal_jump_shape b player target Hok) in Hlegal
        as (d & Hd & [m Hm] & Hpawn & [y Hy]); [|fold cur; lia].
      fold cur in Hd, Hm, Hpawn, Hy. rewrite Hpos1.
      apply (link_target b Hok) in Hm as (-> & Hgm & Hm); [|done].
      apply (link_target b Hok) in Hy as (-> & _ & Hy); [|done].
      exists (opposite d). subst target. rewrite !toward_opposite.
      rewrite !Hlinks. split_and!; [done|by eexists| |by eexists].
      rewrite tile_moved by done. fold cur.
      rewrite !decide_False; [done|apply toward_ne|].
      intros E. by apply (toward_ne d (toward d cur)).
    - apply (legal_regular_shape (moved player target b) player cur);
        [rewrite Hpos1; lia|].
      apply (legal_regular_shape b player target) in Hlegal as (d & Hd & [y Hy]);
        [|fold cur; lia].
      fold cur in Hd, Hy. rewrite Hpos1. exists (opposite d). subst target.
      split; [apply toward_opposite|]. rewrite Hlinks.
      apply (link_target b Hok) in Hy as (-> & _ & ->); [by eexists|done].
    - apply (legal_jump_shape (moved player target b) player cur Hok1);
        [rewrite Hpos1; lia|].
      apply (legal_jump_shape b player target Hok) in Hlegal
        as (d & Hd & [m Hm] & Hpawn & [y Hy]); [|fold cur; lia].
      fold cur in Hd, Hm, Hpawn, Hy. rewrite Hpos1.
      apply (link_target b Hok) in Hm as (-> & Hgm & Hm); [|done].
      apply (link_target b Hok) in Hy as (-> & _ & Hy); [|done].
      exists (opposite d). subst target. rewrite !toward_opposite.
      rewrite !Hlinks. split_and!; [done|by eexists| |by eexists].
      rewrite tile_moved by done. fold cur.
      rewrite !decide_False; [done|apply toward_ne|].
      intros E. by apply (toward_ne d (toward d cur)). }
  rewrite move_pawn_free, Hlegal1 by done. do 2 f_equal.
  apply board_ext.
  - by apply board_ok_moved.
  - done.
  - rewrite !player_1_moved. unfold cur, position_of. by case_bool_decide.
  - rewrite !player_2_moved. unfold cur, position_of. by case_bool_decide.
  - intros x Hx.
    assert (T1 : Board.tile (moved player target b) cur
                 = Tile.set_has_pawn 0 (Board.tile b cur)).
    { rewrite tile_moved by done. fold cur. by rewrite decide_False, decide_True. }
    assert (T2 : Board.tile (moved player target b) target
                 = Tile.set_has_pawn player (Board.tile b target)).
    { rewrite tile_moved by done. fold cur. by rewrite decide_True, decide_False. }
    assert (T3 : x ≠ cur → x ≠ target → Board.tile (moved player target b) x = Board.tile b x).
    { intros. rewrite tile_moved by done. fold cur. by rewrite !decide_False. }
    rewrite (tile_moved (moved player target b) player cur Hok1 Hcur), Hpos1.
    destruct (decide (x = cur)) as [->|Hx1].
    + rewrite decide_False by done. rewrite T1, set_has_pawn_twice.
      by apply set_has_pawn_same.
    + destruct (decide (x = target)) as [->|Hx2].
      * rewrite T2, set_has_pawn_twice. by apply set_has_pawn_same.
      * by apply T3.
Qed.

Lemma straight_move_undone_witness :
  Board.move_pawn 1 (position_of standoff 1)
    (moved 1 (4, 6) standoff) = Ok (true, standoff).
Proof.
  apply (straight_move_undone standoff (moved 1 (4, 6) standoff) 1 (4, 6)).
  - apply (play_board_ok standoff_calls). by vm_compute.
  - apply (play_pawns_ok standoff_calls); [|by vm_compute].
    apply (bool_decide_unpack _). by vm_compute.
  - by left.
  - vm_compute. left. split; [done|]. by right.
  - by vm_compute.
Defined.

(** * Properties of the game *)

(** ** Counting the fences on the board *)

Lemma filter_length_ext {A} (P Q : A → Prop)
    `{!∀ x, Decision (P x)} `{!∀ x, Decision (Q x)} (l : list A) :
  (∀ x, x ∈ l → P x ↔ Q x) → length (filter P l) = length (filter Q l).
Proof.
  induction l as [|x l IH]; intros Hext; [done|].
  assert (IH' : length (filter P l) = length (filter Q l)).
  { apply IH. intros y Hy. apply Hext. by right. }
  destruct (decide (P x)) as [HP|HP].
  - rewrite !filter_cons_True; [simpl; by rewrite IH'|by apply Hext; [left|]|done].
  - rewrite !filter_cons_False; [done| |done]. intros HQ. apply HP.
    by apply Hext; [left|].
Qed.

Lemma filter_length_flip {A} (P Q : A → Prop)
    `{!∀ x, Decision (P x)} `{!∀ x, Decision (Q x)} (l : list A) (a : A) :
  NoDup l → a ∈ l → ¬ P a → Q a →
  (∀ x, x ∈ l → x ≠ a → P x ↔ Q x) →
  length (filter Q l) = S (length (filter P l)).
Proof.
  intros Hnd. induction Hnd as [|x l Hx Hnd IH]; intros Ha HP HQ Hrest.
  - by apply elem_of_nil in Ha.
  - apply elem_of_cons in Ha as [->|Ha].
    + rewrite filter_cons_True, filter_cons_False by done. simpl. f_equal.
      apply filter_length_ext. intros y Hy. symmetry.
      apply Hrest; [by right|]. by intros ->.
    + assert (Hxa : x ≠ a) by by intros ->.
      assert (IH' : length (filter Q l) = S (length (filter P l))).
      { apply IH; [done..|]. intros y Hy. apply Hrest. by right. }
      destruct (decide (P x)) as [HPx|HPx].
      * rewrite !filter_cons_True; [|done|]; [simpl; by rewrite IH'|].
        apply Hrest; [by left|done..].
      * rewrite !filter_cons_False; [done|done|].
        intros HQx. apply HPx. by apply Hrest; [left|..].
Qed.

Lemma fence_slots_NoDup : NoDup fence_slots.
Proof. apply (bool_decide_unpack _). by vm_compute. Qed.

Lemma fence_slots_elem x d :
  (x, d) ∈ fence_slots ↔ in_grid x ∧ (d = West ∨ d = North) ∧ in_grid (toward d x).
Proof.
  unfold fence_slots. rewrite list_elem_of_bind. split.
  - intros (col & H & Hcol%elem_of_seqZ). apply list_elem_of_bind in H as (row & H & Hrow%elem_of_seqZ).
    apply list_elem_of_bind in H as (d' & H & Hd).
    case_bool_decide as Hg; [|by apply elem_of_nil in H].
    apply list_elem_of_singleton in H as [= -> ->].
    split_and!; [unfold in_grid; simpl; lia| |done]. set_solver.
  - intros (Hx & Hd & Hg). destruct x as [col row].
    destruct Hx as [[??][??]]. cbn [fst snd] in *.
    exists col. split; [|apply elem_of_seqZ; lia].
    apply list_elem_of_bind. exists row. split; [|apply elem_of_seqZ; lia].
    apply list_elem_of_bind. exists d. split; [|set_solver].
    rewrite bool_decide_eq_true_2 by done. by apply list_elem_of_singleton.
Qed.

Lemma fences_on_board_moved b player target :
  board_ok b → in_grid target →
  fences_on_board (moved player target b) = fences_on_board b.
Proof.
  intros Hok Hg. unfold fences_on_board. apply filter_length_ext.
  intros [x d] _. simpl. by rewrite link_moved.
Qed.

Lemma fences_on_board_fenced b direction d x :
  board_ok b → fence_side direction = Some d → in_grid x →
  is_Some (link (Board.tile b x) d) →
  fences_on_board (fenced d x b) = S (fences_on_board b).
Proof.
  intros Hok Hside Hx Hopen. unfold fences_on_board.
  destruct (fenced_neighbour b d x Hok Hx Hopen) as (Hl & Hy & _).
  assert (Hd : d = West ∨ d = North).
  { unfold fence_side in Hside. repeat case_decide; naive_solver. }
  apply (filter_length_flip _ _ _ (x, d)).
  - apply fence_slots_NoDup.
  - by apply fence_slots_elem.
  - simpl. by rewrite Hl.
  - simpl. rewrite link_fenced by done. by rewrite decide_True by auto.
  - intros [z d'] [_ [Hd' _]]%fence_slots_elem Hne. simpl.
    rewrite link_fenced by done. rewrite decide_False; [done|].
    intros [[-> ->]|[_ ->]]; [done|]. by destruct Hd as [-> | ->], Hd' as [|].
Qed.

(** ** What a call on a game does *)

Lemma game_eta g :
  QuoridorGame.mk (QuoridorGame._board g) (QuoridorGame._player_turn g)
    (QuoridorGame._game_over g) (QuoridorGame._player_1_fences g)
    (QuoridorGame._player_2_fences g) = g.
Proof. by destruct g. Qed.

Lemma player_in_goal_moved b player target :
  player = 1 ∨ player = 2 →
  Board.player_in_goal (moved player target b) player
  = bool_decide (target.2 = goal_row player).
Proof.
  intros Hpl. unfold Board.player_in_goal, goal_row.
  rewrite player_1_moved, player_2_moved.
  destruct Hpl as [-> | ->]; simpl; repeat case_bool_decide; naive_solver.
Qed.

Lemma game_move_cases g player new_pos :
  game_ok g →
  QuoridorGame.move_pawn player new_pos g = Ok (false, g)
  ∨ (QuoridorGame._game_over g = 0
     ∧ player = QuoridorGame._player_turn g
     ∧ in_grid new_pos
     ∧ Tile._has_pawn (Board.tile (QuoridorGame._board g) new_pos) = 0
     ∧ legal (QuoridorGame._board g) player new_pos = true
     ∧ Board.move_pawn player new_pos (QuoridorGame._board g)
       = Ok (true, moved player new_pos (QuoridorGame._board g))
     ∧ QuoridorGame.move_pawn player new_pos g = Ok (true, game_moved player new_pos g)).
Proof.
  intros Hg. unfold QuoridorGame.move_pawn.
  case_bool_decide as Hover; [by left|].
  case_bool_decide as Hturn; [by left|].
  assert (Hpl : player = 1 ∨ player = 2) by (rewrite Hturn; apply Hg).
  destruct (move_pawn_cases (QuoridorGame._board g) player new_pos (gok_board _ Hg))
    as [(Hcall & Hgrid & Hfree & Hlegal)|Hcall]; rewrite Hcall; simpl.
  - right. split_and!; try done. do 2 f_equal. unfold game_moved, opponent.
    rewrite player_in_goal_moved by done.
    by repeat case_bool_decide.
  - left. by rewrite game_eta.
Qed.

Lemma game_fence_cases g player direction position :
  game_ok g →
  QuoridorGame.place_fence player direction position g = Ok (PyBool false, g)
  ∨ (QuoridorGame._game_over g = 0
     ∧ player = QuoridorGame._player_turn g
     ∧ fences_of g player ≠ 0
     ∧ ∃ d, fence_side direction = Some d ∧ in_grid position
            ∧ is_Some (link (Board.tile (QuoridorGame._board g) position) d)
            ∧ (Board.unfair (fenced d position (QuoridorGame._board g)) = Ok true
               ∧ QuoridorGame.place_fence player direction position g
                 = Ok (PyStr fair_play_message, g)
               ∨ Board.unfair (fenced d position (QuoridorGame._board g)) = Ok false
                 ∧ QuoridorGame.place_fence player direction position g
                   = Ok (PyBool true, game_fenced player d position g))).
Proof.
  intros Hg. unfold QuoridorGame.place_fence.
  case_bool_decide as Hover; [by left|].
  case_bool_decide as Hturn; [by left|].
  assert (Hpl : player = 1 ∨ player = 2) by (rewrite Hturn; apply Hg).
  case_bool_decide as Hf1; [by left|].
  case_bool_decide as Hf2; [by left|].
  assert (Hfences : fences_of g player ≠ 0).
  { unfold fences_of. case_bool_decide; naive_solver. }
  destruct (place_fence_cases (QuoridorGame._board g) direction position (gok_board _ Hg))
    as [Hcall|(d & Hside & Hgrid & Hopen & [[Hfair Hcall]|[Hfair Hcall]])];
    rewrite Hcall; simpl.
  - left. by rewrite game_eta.
  - right. split_and!; try done. exists d. split_and!; try done. left.
    split; [done|]. by rewrite game_eta.
  - right. split_and!; try done. exists d. split_and!; try done. right.
    split; [done|]. do 2 f_equal. unfold game_fenced, opponent.
    by repeat case_bool_decide.
Qed.

(** ** The game stays well-formed *)

Lemma game_ok_init : game_ok QuoridorGame.__init__.
Proof.
  split; simpl;
    [apply board_ok_init|apply pawns_ok_init|by left|by left|by vm_compute
    |by vm_compute|lia|lia|by vm_compute|split; apply routes_init].
Qed.

Lemma game_ok_moved g player new_pos :
  game_ok g →
  QuoridorGame._game_over g = 0 → player = QuoridorGame._player_turn g →
  in_grid new_pos →
  Tile._has_pawn (Board.tile (QuoridorGame._board g) new_pos) = 0 →
  legal (QuoridorGame._board g) player new_pos = true →
  game_ok (game_moved player new_pos g).
Proof.
  intros Hg Hover Hturn Hgrid Hfree Hlegal.
  assert (Hpl : player = 1 ∨ player = 2) by (rewrite Hturn; apply Hg).
  pose proof (gok_board _ Hg) as Hok.
  pose proof (gok_goal_1 _ Hg) as H1. pose proof (gok_goal_2 _ Hg) as H2.
  rewrite Hover in H1, H2.
  split; unfold game_moved; simpl.
  - by apply board_ok_moved.
  - apply pawns_ok_moved; [done..|apply Hg|done|done].
  - unfold opponent. case_bool_decide; auto.
  - rewrite Hover. case_bool_decide; naive_solver.
  - rewrite player_1_moved, Hover. unfold goal_row.
    destruct Hpl as [-> | ->]; simpl; repeat case_bool_decide; naive_solver.
  - rewrite player_2_moved, Hover. unfold goal_row.
    destruct Hpl as [-> | ->]; simpl; repeat case_bool_decide; naive_solver.
  - apply Hg.
  - apply Hg.
  - rewrite fences_on_board_moved by done. apply Hg.
  - destruct (gok_routes _ Hg) as [R1 R2].
    split; apply has_route_moved; try done; intros p; by apply has_route_any.
Qed.

Lemma game_ok_fenced g player direction d position :
  game_ok g →
  player = QuoridorGame._player_turn g → fences_of g player ≠ 0 →
  fence_side direction = Some d → in_grid position →
  is_Some (link (Board.tile (QuoridorGame._board g) position) d) →
  Board.unfair (fenced d position (QuoridorGame._board g)) = Ok false →
  game_ok (game_fenced player d position g).
Proof.
  intros Hg Hturn Hfences Hside Hgrid Hopen Hfair.
  assert (Hpl : player = 1 ∨ player = 2) by (rewrite Hturn; apply Hg).
  pose proof (gok_board _ Hg) as Hok.
  pose proof (gok_fences_1 _ Hg) as F1. pose proof (gok_fences_2 _ Hg) as F2.
  pose proof (gok_fences _ Hg) as F.
  assert (Hok' : board_ok (fenced d position (QuoridorGame._board g)))
    by by apply board_ok_fenced.
  unfold fences_of in Hfences.
  split; unfold game_fenced; simpl.
  - done.
  - apply pawns_ok_fenced; [done..|apply Hg].
  - unfold opponent. case_bool_decide; auto.
  - apply Hg.
  - rewrite player_1_fenced. apply Hg.
  - rewrite player_2_fenced. apply Hg.
  - destruct Hpl as [-> | ->]; simpl in *; lia.
  - destruct Hpl as [-> | ->]; simpl in *; lia.
  - rewrite (fences_on_board_fenced _ direction) by done.
    destruct Hpl as [-> | ->]; simpl in *; lia.
  - destruct (unfair_total _ Hok') as (r & Hr & Hiff). rewrite Hfair in Hr.
    injection Hr as <-. destruct Hiff as [Hiff _]. destruct (Hiff eq_refl) as [R1 R2].
    apply route_via_link_iff in R1 as [_ R1]; [|done].
    by apply route_via_link_iff in R2 as [_ R2].
Qed.

Lemma game_exec_ok c g : game_ok g → ∃ g', game_exec c g = Ok g' ∧ game_ok g'.
Proof.
  intros Hg. destruct c as [player new_pos|player direction position]; simpl.
  - destruct (game_move_cases g player new_pos Hg)
      as [-> |(Hover & Hturn & Hgrid & Hfree & Hlegal & _ & ->)]; simpl.
    + by exists g.
    + eexists. split; [done|]. by apply game_ok_moved.
  - destruct (game_fence_cases g player direction position Hg)
      as [-> |(Hover & Hturn & Hf & d & Hside & Hgrid & Hopen & [[_ ->]|[Hfair ->]])];
      simpl.
    + by exists g.
    + by exists g.
    + eexists. split; [done|]. by apply (game_ok_fenced g player direction).
Qed.

Lemma game_play_from_ok cs : ∀ g,
  game_ok g → ∃ g', game_play_from g cs = Ok g' ∧ game_ok g'.
Proof.
  induction cs as [|c cs IH]; intros g Hg; simpl.
  - by exists g.
  - destruct (game_exec_ok c g Hg) as (g1 & -> & Hg1). simpl. by apply IH.
Qed.

Lemma game_play_ok cs g : game_play cs = Ok g → game_ok g.
Proof.
  intros H. destruct (game_play_from_ok cs _ game_ok_init) as (g' & Hg' & Hok).
  unfold game_play in H. rewrite Hg' in H. by injection H as <-.
Qed.

Lemma play_won : game_play won_calls = Ok won.
Proof. by vm_compute. Qed.

Lemma play_opened : game_play opened_calls = Ok opened.
Proof. by vm_compute. Qed.

(** X7.  In the game left by any sequence of calls on a new game, the winner
    flag agrees with the board: [is_winner(1)] holds iff the pawn of player 1
    stands in row 8, [is_winner(2)] holds iff the pawn of player 2 stands in
    row 0, and the game is in progress iff neither does. *)
Theorem winner_agrees_with_board (cs : list game_call) (g : QuoridorGame.t) :
  game_play cs = Ok g →
  (QuoridorGame.is_winner g 1 = true
   ↔ (Board._player_1 (QuoridorGame._board g)).2 = 8)
  ∧ (QuoridorGame.is_winner g 2 = true
     ↔ (Board._player_2 (QuoridorGame._board g)).2 = 0)
  ∧ (QuoridorGame._game_over g = 0
     ↔ (Board._player_1 (QuoridorGame._board g)).2 ≠ 8
       ∧ (Board._player_2 (QuoridorGame._board g)).2 ≠ 0).
Proof.
  intros Hplay. apply game_play_ok in Hplay as Hg.
  pose proof (gok_goal_1 _ Hg) as H1. pose proof (gok_goal_2 _ Hg) as H2.
  pose proof (gok_over _ Hg) as Hover.
  unfold QuoridorGame.is_winner. split_and!.
  - rewrite H1. by case_bool_decide.
  - rewrite H2. by case_bool_decide.
  - rewrite H1, H2. lia.
Qed.

Lemma winner_agrees_with_board_witness :
  (QuoridorGame.is_winner won 1 = true
   ↔ (Board._player_1 (QuoridorGame._board won)).2 = 8)
  ∧ (QuoridorGame.is_winner won 2 = true
     ↔ (Board._player_2 (QuoridorGame._board won)).2 = 0)
  ∧ (QuoridorGame._game_over won = 0
     ↔ (Board._player_1 (QuoridorGame._board won)).2 ≠ 8
       ∧ (Board._player_2 (QuoridorGame._board won)).2 ≠ 0).
Proof. apply (winner_agrees_with_board won_calls won). by vm_compute. Defined.

(** X8.  In the game left by any sequence of calls on a new game, each
    player holds between 0 and 10 fences and the fences standing on the board
    are exactly the fences handed out: 20 minus the fences the two players
    still hold. *)
Theorem fence_inventory (cs : list game_call) (g : QuoridorGame.t) :
  game_play cs = Ok g →
  0 ≤ QuoridorGame._player_1_fences g ≤ 10
  ∧ 0 ≤ QuoridorGame._player_2_fences g ≤ 10
  ∧ Z.of_nat (fences_on_board (QuoridorGame._board g))
    = 20 - QuoridorGame._player_1_fences g - QuoridorGame._player_2_fences g.
Proof. intros Hg%game_play_ok. split_and!; apply Hg. Qed.

Lemma fence_inventory_witness :
  0 ≤ QuoridorGame._player_1_fences opened ≤ 10
  ∧ 0 ≤ QuoridorGame._player_2_fences opened ≤ 10
  ∧ Z.of_nat (fences_on_board (QuoridorGame._board opened))
    = 20 - QuoridorGame._player_1_fences opened - QuoridorGame._player_2_fences opened.
Proof. apply (fence_inventory opened_calls opened). by vm_compute. Defined.

(** X9.  In the game left by any sequence of calls on a new game, a call that
    is refused changes nothing: a [move_pawn] that returns [False] and a
    [place_fence] that returns [False] or the fair-play message leave the
    board, the turn, the winner flag and both fence counts as they were. *)
Theorem refusal_changes_nothing (cs : list game_call) (g : QuoridorGame.t) :
  game_play cs = Ok g →
  (∀ player new_pos g',
     QuoridorGame.move_pawn player new_pos g = Ok (false, g') → g' = g)
  ∧ (∀ player direction position r g',
       QuoridorGame.place_fence player direction position g = Ok (r, g') →
       r ≠ PyBool true → g' = g).
Proof.
  intros Hg%game_play_ok. split.
  - intros player new_pos g' Hcall.
    destruct (game_move_cases g player new_pos Hg) as [H|(_ & _ & _ & _ & _ & _ & H)];
      rewrite H in Hcall; by simplify_eq.
  - intros player direction position r g' Hcall Hr.
    destruct (game_fence_cases g player direction position Hg)
      as [H|(_ & _ & _ & d & _ & _ & _ & [[_ H]|[_ H]])];
      rewrite H in Hcall; by simplify_eq.
Qed.

Lemma refusal_changes_nothing_witness :
  (∀ player new_pos g',
     QuoridorGame.move_pawn player new_pos opened = Ok (false, g') → g' = opened)
  ∧ (∀ player direction position r g',
       QuoridorGame.place_fence player direction position opened = Ok (r, g') →
       r ≠ PyBool true → g' = opened).
Proof. apply (refusal_changes_nothing opened_calls opened). by vm_compute. Defined.

Lemma game_frozen g cs :
  QuoridorGame._game_over g ≠ 0 → game_play_from g cs = Ok g.
Proof.
  intros Hover. induction cs as [|c cs IH]; [done|]. simpl.
  assert (game_exec c g = Ok g) as ->; [|done].
  destruct c; simpl; unfold QuoridorGame.move_pawn, QuoridorGame.place_fence;
    by rewrite bool_decide_eq_true_2.
Qed.

(** X10.  In the game left by any sequence of calls on a new game, as soon
    as the pawn of player 1 stands in row 8 or the pawn of player 2 stands in
    row 0 the game is frozen: every further sequence of calls leaves the game
    exactly as it is. *)
Theorem game_frozen_at_goal (cs cs' : list game_call) (g : QuoridorGame.t) :
  game_play cs = Ok g →
  (Board._player_1 (QuoridorGame._board g)).2 = 8
  ∨ (Board._player_2 (QuoridorGame._board g)).2 = 0 →
  game_play_from g cs' = Ok g.
Proof.
  intros Hg%game_play_ok Hgoal. apply game_frozen.
  pose proof (gok_goal_1 _ Hg) as H1. pose proof (gok_goal_2 _ Hg) as H2.
  destruct Hgoal as [H|H]; [apply H1 in H|apply H2 in H]; lia.
Qed.

Lemma game_frozen_at_goal_witness :
  game_play_from won [GameMove 2 (3, 7); GameFence 2 "v" (5, 5); GameMove 1 (4, 7)]
  = Ok won.
Proof.
  apply (game_frozen_at_goal won_calls _ won).
  - by vm_compute.
  - left. by vm_compute.
Defined.

(** X11.  In the game left by any sequence of calls on a new game, a call
    that succeeds was made by the player on turn and passes the turn to the
    other player.  A successful [move_pawn] is a successful [Board.move_pawn]
    and leaves both fence counts; a successful [place_fence] is a successful
    [Board.place_fence], takes one fence from the player, who had one, and
    leaves the count of the other player and the winner flag. *)
Theorem success_passes_turn (cs : list game_call) (g : QuoridorGame.t) :
  game_play cs = Ok g →
  (∀ player new_pos g',
     QuoridorGame.move_pawn player new_pos g = Ok (true, g') →
     player = QuoridorGame._player_turn g
     ∧ QuoridorGame._player_turn g' = opponent player
     ∧ Board.move_pawn player new_pos (QuoridorGame._board g)
       = Ok (true, QuoridorGame._board g')
     ∧ fences_of g' 1 = fences_of g 1 ∧ fences_of g' 2 = fences_of g 2)
  ∧ (∀ player direction position g',
       QuoridorGame.place_fence player direction position g = Ok (PyBool true, g') →
       player = QuoridorGame._player_turn g
       ∧ QuoridorGame._player_turn g' = opponent player
       ∧ Board.place_fence direction position (QuoridorGame._board g)
         = Ok (PyBool true, QuoridorGame._board g')
       ∧ 0 < fences_of g player
       ∧ fences_of g' player = fences_of g player - 1
       ∧ fences_of g' (opponent player) = fences_of g (opponent player)
       ∧ QuoridorGame._game_over g' = QuoridorGame._game_over g).
Proof.
  intros Hg%game_play_ok. split.
  - intros player new_pos g' Hcall.
    destruct (game_move_cases g player new_pos Hg)
      as [H|(_ & Hturn & _ & _ & _ & Hboard & H)]; rewrite H in Hcall; simplify_eq.
    by split_and!.
  - intros player direction position g' Hcall.
    destruct (game_fence_cases g player direction position Hg)
      as [H|(_ & Hturn & Hf & d & Hside & Hgrid & Hopen & [[_ H]|[Hfair H]])];
      rewrite H in Hcall; simplify_eq.
    assert (Hpl : QuoridorGame._player_turn g = 1 ∨ QuoridorGame._player_turn g = 2)
      by apply Hg.
    pose proof (gok_fences_1 _ Hg). pose proof (gok_fences_2 _ Hg).
    destruct (place_fence_cases (QuoridorGame._board g) direction position (gok_board _ Hg))
      as [Hb|(d' & Hside' & _ & _ & [[Hfair' _]|[_ Hb]])].
    + rewrite place_fence_eq, Hside, decide_True in Hb by (done || apply Hg).
      destruct Hopen as [y Hy]. rewrite Hy, Hfair in Hb. by simplify_eq.
    + rewrite Hside in Hside'. simplify_eq. by rewrite Hfair in Hfair'.
    + rewrite Hside in Hside'. simplify_eq.
      unfold fences_of, opponent, game_fenced in *. simpl.
      destruct Hpl as [Hpl|Hpl]; rewrite Hpl in *; simpl in *; split_and!; (done || lia).
Qed.

Lemma success_passes_turn_witness :
  (∀ player new_pos g',
     QuoridorGame.move_pawn player new_pos opened = Ok (true, g') →
     player = QuoridorGame._player_turn opened
     ∧ QuoridorGame._player_turn g' = opponent player
     ∧ Board.move_pawn player new_pos (QuoridorGame._board opened)
       = Ok (true, QuoridorGame._board g')
     ∧ fences_of g' 1 = fences_of opened 1 ∧ fences_of g' 2 = fences_of opened 2)
  ∧ (∀ player direction position g',
       QuoridorGame.place_fence player direction position opened = Ok (PyBool true, g') →
       player = QuoridorGame._player_turn opened
       ∧ QuoridorGame._player_turn g' = opponent player
       ∧ Board.place_fence direction position (QuoridorGame._board opened)
         = Ok (PyBool true, QuoridorGame._board g')
       ∧ 0 < fences_of opened player
       ∧ fences_of g' player = fences_of opened player - 1
       ∧ fences_of g' (opponent player) = fences_of opened (opponent player)
       ∧ QuoridorGame._game_over g' = QuoridorGame._game_over opened).
Proof. apply (success_passes_turn opened_calls opened). by vm_compute. Defined.

(** In a game in progress no pawn stands in its goal row, so the check of
    [place_fence] is exact on the board with the link closed. *)
Lemma unfair_off_goal b :
  board_ok b →
  (Board._player_1 b).2 ≠ 8 → (Board._player_2 b).2 ≠ 0 →
  (Board.unfair b = Ok false ↔ has_route b 1 ∧ has_route b 2)
  ∧ (Board.unfair b = Ok true ↔ ¬ (has_route b 1 ∧ has_route b 2)).
Proof.
  intros Hok H1 H2.
  rewrite (route_via_link_off_goal b 1), (route_via_link_off_goal b 2) by done.
  destruct (unfair_total b Hok) as (r & -> & Hiff). rewrite <- Hiff.
  destruct r; split; split; try done; by intros [=].
Qed.

(** X12.  In a game in progress left by any sequence of calls on a new game,
    when the player on turn, holding a fence, asks for a fence on a link
    that is open, [place_fence] returns [True] and closes the link iff each
    player keeps a path of open links to its goal row with the link closed,
    and returns the fair-play message, with the game unchanged, iff one of
    them does not. *)
Theorem game_fair_play_exact (cs : list game_call) (g : QuoridorGame.t)
    (player : Z) (direction : string) (position : Z * Z) (d : compass) :
  game_play cs = Ok g →
  QuoridorGame._game_over g = 0 →
  player = QuoridorGame._player_turn g →
  fences_of g player ≠ 0 →
  fence_side direction = Some d → in_grid position →
  is_Some (link (Board.tile (QuoridorGame._board g) position) d) →
  let closed := fenced d position (QuoridorGame._board g) in
  (QuoridorGame.place_fence player direction position g
   = Ok (PyBool true, game_fenced player d position g)
   ↔ has_route closed 1 ∧ has_route closed 2)
  ∧ (QuoridorGame.place_fence player direction position g
     = Ok (PyStr fair_play_message, g)
     ↔ ¬ (has_route closed 1 ∧ has_route closed 2)).
Proof.
  intros Hg%game_play_ok Hover Hturn Hfences Hside Hgrid Hopen closed.
  pose proof (gok_board _ Hg) as Hok.
  assert (Hok' : board_ok closed) by by apply board_ok_fenced.
  assert (H1 : (Board._player_1 closed).2 ≠ 8).
  { unfold closed. rewrite player_1_fenced, (gok_goal_1 _ Hg). lia. }
  assert (H2 : (Board._player_2 closed).2 ≠ 0).
  { unfold closed. rewrite player_2_fenced, (gok_goal_2 _ Hg). lia. }
  destruct (unfair_off_goal closed Hok' H1 H2) as [Hfair Hunfair].
  rewrite <- Hunfair, <- Hfair.
  destruct (game_fence_cases g player direction position Hg)
    as [H|(_ & _ & _ & d' & Hside' & _ & _ & [[Hu H]|[Hu H]])].
  - exfalso. unfold QuoridorGame.place_fence in H.
    rewrite bool_decide_eq_false_2 in H by lia.
    rewrite bool_decide_eq_false_2 in H by auto.
    assert (Hpl : player = 1 ∨ player = 2) by (rewrite Hturn; apply Hg).
    unfold fences_of in Hfences.
    rewrite !(bool_decide_eq_false_2 (_ ∧ _)) in H
      by (destruct Hpl as [-> | ->]; simpl in *; naive_solver).
    rewrite place_fence_eq, Hside, decide_True in H by done.
    destruct Hopen as [y Hy]. rewrite Hy in H. fold closed in H.
    destruct (unfair_total closed Hok') as ([] & Hr & _); rewrite Hr in H; simpl in H;
      by simplify_eq.
  - rewrite Hside in Hside'. simplify_eq. fold closed in Hu. rewrite H, Hu.
    split; split; try done; by intros [=].
  - rewrite Hside in Hside'. simplify_eq. fold closed in Hu. rewrite H, Hu.
    split; split; try done; by intros [=].
Qed.

Lemma game_fair_play_exact_witness :
  (QuoridorGame.place_fence 2 "h" (4, 8) opened
   = Ok (PyBool true, game_fenced 2 North (4, 8) opened)
   ↔ has_route (fenced North (4, 8) (QuoridorGame._board opened)) 1
     ∧ has_route (fenced North (4, 8) (QuoridorGame._board opened)) 2)
  ∧ (QuoridorGame.place_fence 2 "h" (4, 8) opened
     = Ok (PyStr fair_play_message, opened)
     ↔ ¬ (has_route (fenced North (4, 8) (QuoridorGame._board opened)) 1
          ∧ has_route (fenced North (4, 8) (QuoridorGame._board opened)) 2)).
Proof.
  apply (game_fair_play_exact opened_calls opened 2 "h" (4, 8) North).
  - by vm_compute.
  - by vm_compute.
  - by vm_compute.
  - by vm_compute.
  - by vm_compute.
  - by vm_compute.
  - vm_compute. by eexists.
Defined.

(** X13.  Every sequence of [QuoridorGame.move_pawn] and
    [QuoridorGame.place_fence] calls on a new game, with any integer player,
    any integer coordinates and any direction string, runs without an
    exception and within the allotment of the search loop; on the game it
    leaves a further [move_pawn] returns a boolean and a further
    [place_fence] returns [True], [False] or the fair-play message. *)
Theorem game_calls_total (cs : list game_call) :
  ∃ g, game_play cs = Ok g
  ∧ (∀ player new_pos, ∃ r g', QuoridorGame.move_pawn player new_pos g = Ok (r, g'))
  ∧ (∀ player direction position,
       ∃ r g', QuoridorGame.place_fence player direction position g = Ok (r, g')
               ∧ (r = PyBool true ∨ r = PyBool false ∨ r = PyStr fair_play_message)).
Proof.
  destruct (game_play_from_ok cs _ game_ok_init) as (g & Hplay & Hg).
  exists g. split; [done|]. split.
  - intros player new_pos.
    destruct (game_move_cases g player new_pos Hg) as [-> |(_ & _ & _ & _ & _ & _ & ->)];
      eauto.
  - intros player direction position.
    destruct (game_fence_cases g player direction position Hg)
      as [-> |(_ & _ & _ & d & _ & _ & _ & [[_ ->]|[_ ->]])]; do 2 eexists; eauto.
Qed.

(** X14.  A move wins iff it ends in the mover's goal row: in the game left
    by any sequence of calls on a new game, after a successful [move_pawn]
    of a player to a cell, [is_winner] holds for that player iff the cell is
    in row 8 for player 1 or row 0 for player 2, and it does not hold for
    the other player. *)
Theorem winning_move (cs : list game_call) (g g' : QuoridorGame.t)
    (player : Z) (new_pos : Z * Z) :
  game_play cs = Ok g →
  QuoridorGame.move_pawn player new_pos g = Ok (true, g') →
  (QuoridorGame.is_winner g' player = true ↔ new_pos.2 = goal_row player)
  ∧ QuoridorGame.is_winner g' (opponent player) = false.
Proof.
  intros Hg%game_play_ok Hcall.
  destruct (game_move_cases g player new_pos Hg) as [H|(Hover & Hturn & _ & _ & _ & _ & H)];
    rewrite H in Hcall; simplify_eq.
  assert (Hpl : QuoridorGame._player_turn g = 1 ∨ QuoridorGame._player_turn g = 2)
    by apply Hg.
  unfold QuoridorGame.is_winner, game_moved, opponent. simpl. rewrite Hover.
  destruct Hpl as [-> | ->]; simpl; repeat case_bool_decide; naive_solver.
Qed.

Lemma winning_move_witness :
  (QuoridorGame.is_winner (game_moved 2 (4, 7) opened) 2 = true ↔ (4, 7).2 = goal_row 2)
  ∧ QuoridorGame.is_winner (game_moved 2 (4, 7) opened) (opponent 2) = false.
Proof.
  apply (winning_move opened_calls opened (game_moved 2 (4, 7) opened) 2 (4, 7)).
  - by vm_compute.
  - by vm_compute.
Defined.

(** ** More on the board *)

(** X15.  On a well-formed board a fence on the board edge is refused:
    [place_fence("v", (0, k))] and [place_fence("h", (k, 0))] return [False]
    and leave the board as it is, for every [k]. *)
Theorem edge_fence_refused (b : Board.t) (k : Z) :
  board_ok b →
  Board.place_fence "v" (0, k) b = Ok (PyBool false, b)
  ∧ Board.place_fence "h" (k, 0) b = Ok (PyBool false, b).
Proof.
  intros Hok. rewrite !place_fence_eq by done.
  change (fence_side "v") with (Some West). change (fence_side "h") with (Some North).
  split; case_decide as Hg; try done.
  - destruct (link (Board.tile b (0, k)) West) as [y|] eqn:Hy; [|done].
    apply (link_target b Hok) in Hy as (-> & [[??]?] & _); [|done].
    unfold toward in *. simpl in *. lia.
  - destruct (link (Board.tile b (k, 0)) North) as [y|] eqn:Hy; [|done].
    apply (link_target b Hok) in Hy as (-> & [? [??]] & _); [|done].
    unfold toward in *. simpl in *. lia.
Qed.

Lemma edge_fence_refused_witness :
  Board.place_fence "v" (0, 4) walled = Ok (PyBool false, walled)
  ∧ Board.place_fence "h" (4, 0) walled = Ok (PyBool false, walled).
Proof.
  apply (edge_fence_refused walled 4).
  apply (play_board_ok walled_calls). by vm_compute.
Defined.

Lemma route_same_links b b' x y :
  (∀ z d, link (Board.tile b z) d = link (Board.tile b' z) d) →
  rtc (linked b) x y → rtc (linked b') x y.
Proof.
  intros Hlinks Hpath. induction Hpath as [|x y z Hxy _ IH]; [done|].
  eapply rtc_l; [|done]. apply valid_directions_link.
  apply valid_directions_link in Hxy as [d Hd]. exists d. by rewrite <- Hlinks.
Qed.

(** X16.  The check looks at fences only: on two well-formed boards with the
    same links and the same stored positions, whatever the pawn markers on
    the cells, [_fair_play] returns the same result. *)
Theorem fair_play_ignores_pawns (b b' : Board.t) (player : Z) :
  board_ok b → board_ok b' →
  Board._player_1 b = Board._player_1 b' →
  Board._player_2 b = Board._player_2 b' →
  (∀ x d, link (Board.tile b x) d = link (Board.tile b' x) d) →
  Board._fair_play player b = Board._fair_play player b'.
Proof.
  intros Hok Hok' H1 H2 Hlinks.
  destruct (fair_play_spec b player Hok) as (r & -> & Hr).
  destruct (fair_play_spec b' player Hok') as (r' & -> & Hr').
  assert (Hpos : position_of b player = position_of b' player).
  { unfold position_of. by rewrite H1, H2. }
  assert (Hsame : has_route_via_link b player ↔ has_route_via_link b' player).
  { unfold has_route_via_link. rewrite Hpos. split.
    - intros (s & y & Hs & Hpath & Hy). exists s, y.
      split_and!; [|by apply (route_same_links b b')|done].
      apply valid_directions_link. apply valid_directions_link in Hs as [d Hd].
      exists d. by rewrite <- Hlinks.
    - intros (s & y & Hs & Hpath & Hy). exists s, y.
      split_and!; [|by apply (route_same_links b' b)|done].
      apply valid_directions_link. apply valid_directions_link in Hs as [d Hd].
      exists d. by rewrite Hlinks. }
  f_equal. destruct r, r'; try done; naive_solver.
Qed.

Lemma fair_play_ignores_pawns_witness :
  Board._fair_play 1 walled
  = Board._fair_play 1 (Board.mutate (0, 0) (Tile.set_has_pawn 2) walled).
Proof.
  assert (Hok : board_ok walled) by (apply (play_board_ok walled_calls); by vm_compute).
  apply (fair_play_ignores_pawns walled _ 1).
  - done.
  - apply board_ok_mutate; [done|by vm_compute|by intros; apply set_has_pawn_link|done].
  - by rewrite player_1_mutate.
  - by rewrite player_2_mutate.
  - intros x d. rewrite (tile_mutate walled Hok) by by vm_compute.
    case_decide; subst; by rewrite ?set_has_pawn_link.
Defined.

(** X17.  On the board left by any sequence of [move_pawn] and [place_fence]
    calls on a new board, whatever their arguments, [_fair_play] returns
    [True] iff a path of open links leads from the player's pawn to a cell of
    its goal row, the path of length zero included, and [False] iff there is
    none. *)
Theorem fair_play_exact_between_calls (cs : list call) (b : Board.t) (player : Z) :
  play cs = Ok b →
  (Board._fair_play player b = Ok true ↔ has_route b player)
  ∧ (Board._fair_play player b = Ok false ↔ ¬ has_route b player).
Proof.
  intros Hplay. destruct (fair_play_between_calls cs b player Hplay) as (r & -> & Hiff).
  rewrite <- Hiff. destruct r; split; split; try done; by intros [=].
Qed.

Lemma fair_play_exact_between_calls_witness :
  (Board._fair_play 1 cornered = Ok true ↔ has_route cornered 1)
  ∧ (Board._fair_play 1 cornered = Ok false ↔ ¬ has_route cornered 1).
Proof. apply (fair_play_exact_between_calls cornered_calls cornered 1). by vm_compute. Defined.
